(** * compileyeastdatabase: the provisioning class [DatabaseAPINew]

    A shallow embedding of [compileyeastdatabase/Database/DatabaseApi.py].
    The class creates three SQLite tables ([chr_map], [background],
    [regions]), appends pandas frames to them with
    [to_sql(..., if_exists='append', index=False)], and defines the views
    [region_background_agg] and [total_bg_hops].

    The Python statements are embedded in a state-and-exception monad over a
    small file system; the SQL statements are embedded by their meaning on
    typed rows: a nullable column is an [option], a comparison with NULL is
    NULL (three-valued logic), GROUP BY partitions on the key with NULLs
    equal and yields the groups in ascending key order, ORDER BY sorts
    ascending with NULLs first and keeps the order of rows that tie, and
    text compares byte-wise (SQLite's BINARY collation).  A table whose
    [id] is its rowid is read in rowid order. *)

From Stdlib Require Import ZArith.
From Stdlib Require Import Floats.SpecFloat.
From stdpp Require Import base option list sorting gmap strings.

Local Open Scope string_scope.
Local Open Scope list_scope.
Local Open Scope Z_scope.

(** ** SQL expressions over nullable columns *)

Module Sql.

(** [a = b]: NULL as soon as one side is NULL. *)
Definition eq `{EqDecision A} (a b : option A) : option bool :=
  match a, b with
  | Some u, Some v => Some (bool_decide (u = v))
  | _, _ => None
  end.

(** [a >= b] and [a <= b] on INTEGER columns. *)
Definition ge (a b : option Z) : option bool :=
  match a, b with
  | Some u, Some v => Some (bool_decide (v ≤ u))
  | _, _ => None
  end.

Definition le (a b : option Z) : option bool :=
  match a, b with
  | Some u, Some v => Some (bool_decide (u ≤ v))
  | _, _ => None
  end.

(** [p AND q] in three-valued logic: false wins over NULL. *)
Definition and (p q : option bool) : option bool :=
  match p, q with
  | Some false, _ | _, Some false => Some false
  | Some true, Some true => Some true
  | _, _ => None
  end.

(** [a BETWEEN lo AND hi] is [a >= lo AND a <= hi]. *)
Definition between (a lo hi : option Z) : option bool :=
  and (ge a lo) (le a hi).

(** A WHERE clause keeps a row only when the condition is true; false and
    NULL both drop it. *)
Definition holds (p : option bool) : bool :=
  match p with
  | Some true => true
  | _ => false
  end.

(** [FROM l LEFT JOIN r] with no ON clause: every pair; a left row is kept
    with an all-NULL right side when the right table is empty. *)
Definition left_join {A B} (l : list A) (r : list B) : list (A * option B) :=
  a ← l;
  match r with
  | [] => [(a, None)]
  | _ => (λ b, (a, Some b)) <$> r
  end.

(** Ascending order on a nullable column: NULL sorts before every value. *)
Definition nulls_first {A} (R : relation A) : relation (option A) :=
  λ a b,
    match a, b with
    | None, _ => True
    | Some _, None => False
    | Some u, Some v => R u v
    end.

(** Ascending order on a list of ORDER BY terms: the first term decides
    unless it ties. *)
Definition lex {A B} (RA : relation A) (RB : relation B)
  : relation (A * B) :=
  λ p q, (RA p.1 q.1 ∧ p.1 ≠ q.1) ∨ (p.1 = q.1 ∧ RB p.2 q.2).

#[global] Instance nulls_first_dec {A} (R : relation A) `{!RelDecision R} :
  RelDecision (nulls_first R).
Proof. intros [u|] [v|]; simpl; apply _. Defined.

#[global] Instance lex_dec {A B} (RA : relation A) (RB : relation B)
    `{!EqDecision A, !RelDecision RA, !RelDecision RB} :
  RelDecision (lex RA RB).
Proof. intros p q; unfold lex; apply _. Defined.

(** A row put into an ordered list: before the first row that it does not
    sort after. *)
Fixpoint insert_by {A} (R : relation A) `{!RelDecision R} (a : A)
    (l : list A) : list A :=
  match l with
  | [] => [a]
  | b :: l' => if decide (R a b) then a :: l else b :: insert_by R a l'
  end.

(** [ORDER BY key] ascending; rows that tie on the key keep the order they
    come in. *)
Definition order_by {A K} (R : relation K) `{!RelDecision R}
    (key : A → K) (l : list A) : list A :=
  foldr (@insert_by A (λ a b, R (key a) (key b))
                      (λ a b, decide_rel R (key a) (key b))) [] l.

(** [GROUP BY key]: one group per distinct key value, holding the rows with
    that key; the groups come out in ascending order of the key.  Keys
    compare with NULLs equal to each other, which is equality on
    [option]. *)
Definition group_by {A K} `{EqDecision K} (R : relation K) `{!RelDecision R}
    (key : A → K) (l : list A) : list (K * list A) :=
  (λ k, (k, filter (λ a, key a = k) l))
    <$> order_by R id (remove_dups (key <$> l)).

End Sql.

(** ** Rows of the three tables

    Column names and types follow the CREATE TABLE statements.  A TEXT or
    INTEGER column without NOT NULL is an [option]; REAL is an IEEE double.
    [id INTEGER NOT NULL ... PRIMARY KEY(id)] is the rowid: a frame row may
    leave it unset ([None]), a stored row always has one, so the record is
    parametric in the type of [id].  An INTEGER is a [Z]; the engine and
    [to_sql] hold 64-bit integers, and [fits_int64] tells whether the
    INTEGER values of a frame row are in that range. *)

Definition int64_min : Z := - 2 ^ 63.
Definition int64_max : Z := 2 ^ 63 - 1.

Definition in_int64 (z : Z) : bool := (int64_min <=? z) && (z <=? int64_max).

(** NULL is always in range. *)
Definition fits (v : option Z) : bool := from_option in_int64 true v.

Module ChrMap.
Record row := Row {
  refseq : option string;
  igenomes : option string;
  ensembl : option string;
  ucsc : option string;
  mitra : option string;
  seqlength : option Z;
  numbered : option string
}.

Definition fits_int64 (r : row) : bool := fits (seqlength r).
End ChrMap.

Module Background.
Record row {I : Type} := Row {
  id : I;
  chr : option string;
  start : option Z;
  end_ : option Z;
  depth : option Z;
  strand : option string;
  annotation : option string;
  sample : option string
}.
Arguments row : clear implicits.
Arguments Row {I}.

Definition with_id {I J} (j : J) (r : row I) : row J :=
  Row j (chr r) (start r) (end_ r) (depth r) (strand r) (annotation r)
      (sample r).

Definition fits_int64 (r : row (option Z)) : bool :=
  fits (id r) && fits (start r) && fits (end_ r) && fits (depth r).
End Background.

Module Regions.
Record row {I : Type} := Row {
  id : I;
  chr : option string;
  start : option Z;
  end_ : option Z;
  name : option string;
  score : option spec_float;
  strand : option string;
  sample : option string;
  common_name : option string
}.
Arguments row : clear implicits.
Arguments Row {I}.

Definition with_id {I J} (j : J) (r : row I) : row J :=
  Row j (chr r) (start r) (end_ r) (name r) (score r) (strand r)
      (sample r) (common_name r).

(** A frame for [regions]: [has_common_name] tells whether the frame has a
    [common_name] column at all; without it the INSERT omits the column
    and the table's DEFAULT 'none' applies. *)
Record frame := Frame {
  has_common_name : bool;
  rows : list (row (option Z))
}.

(** A row as the INSERT stores it; [default] is true when the statement
    leaves [common_name] out. *)
Definition fill {I} (default : bool) (r : row I) : row I :=
  Row (id r) (chr r) (start r) (end_ r) (name r) (score r) (strand r)
      (sample r) (if default then Some "none" else common_name r).

Definition frame_rows (df : frame) : list (row (option Z)) :=
  fill (negb (has_common_name df)) <$> rows df.

Definition fits_int64 (r : row (option Z)) : bool :=
  fits (id r) && fits (start r) && fits (end_ r).
End Regions.

(** Rows of the two views, with the column aliases of their SELECT lists. *)

Module Agg.
Record row := Row {
  chr : option string;
  start : option Z;
  end_ : option Z;
  background_hops : Z;
  regions_sample : option string;
  background_sample : option string;
  region_id : Z;
  associated_feature_systematic_id : option string;
  associated_feature_common_name : option string
}.
End Agg.

Module Total.
Record row := Row {
  sample : option string;
  hops : Z
}.
End Total.

(** ** The database file

    [catalog] is sqlite_master: the names of the tables, indexes and views
    of the file, a view with the SELECT it was created from.  The three
    row lists are the contents of the tables this class creates, as a
    SELECT without ORDER BY reads them: [chr_map] in insertion order,
    [background] and [regions] in the order of their rowid [id]. *)

(** The SELECT of a view: one of the two this class defines, or any
    other. *)
Inductive select :=
  | SelectRegionBackgroundAgg
  | SelectTotalBgHops
  | SelectOther (sql : string).

Inductive kind := Table | Index | View (q : select).

(** [random_rowid] stands for the engine's draw when the largest rowid is
    in use: SQLite then tries rowids at random, and settles on a free one
    ([Some v]) or gives up ([None]).  It is given the rowids in use; any
    function will do, since [new_rowid] below checks its answer. *)
Record database := Database {
  catalog : gmap string kind;
  chr_map : list ChrMap.row;
  background : list (Background.row Z);
  regions : list (Regions.row Z);
  random_rowid : list Z → option Z
}.

(** A file that SQLite has just created. *)
Definition fresh_database (draw : list Z → option Z) : database :=
  Database ∅ [] [] [] draw.

Definition empty_database : database := fresh_database (λ _, None).

(** ** Exceptions *)

Inductive op_error :=
  | AlreadyExists (name : string)
  | NoSuchTable (name : string)
  | UseDropTable (name : string)
  | UnableToOpen
  | NotADatabase
  | DatabaseFull.

(** A UNIQUE or PRIMARY KEY failure is reported with the table; which of
    several colliding columns the engine names is left open. *)
Inductive constraint :=
  | NotNull (column : string)
  | Unique (table : string).

(** [DatabaseError] is sqlalchemy's class for a file that is not a
    database; [ValueError] stands for the refusal of [to_sql] to store an
    integer outside 64 bits. *)
Inductive exn :=
  | AttributeError
  | FileNotFoundError
  | ValueError
  | OperationalError (e : op_error)
  | DatabaseError (e : op_error)
  | IntegrityError (c : constraint).

(** ** SQL statements of the class, as functions on the database *)

(** CREATE TABLE / INDEX / VIEW fail when the name is in use, whatever the
    kind of the object that has it; none of the statements says
    IF NOT EXISTS. *)
Definition create_object (name : string) (k : kind) (db : database)
  : exn + gmap string kind :=
  match catalog db !! name with
  | Some _ => inl (OperationalError (AlreadyExists name))
  | None => inr (<[name := k]> (catalog db))
  end.

Definition create_table_chr_map (db : database) : exn + database :=
  match create_object "chr_map" Table db with
  | inl e => inl e
  | inr c => inr (Database c [] (background db) (regions db) (random_rowid db))
  end.

Definition create_table_background (db : database) : exn + database :=
  match create_object "background" Table db with
  | inl e => inl e
  | inr c => inr (Database c (chr_map db) [] (regions db) (random_rowid db))
  end.

Definition create_table_regions (db : database) : exn + database :=
  match create_object "regions" Table db with
  | inl e => inl e
  | inr c => inr (Database c (chr_map db) (background db) [] (random_rowid db))
  end.

(** [CREATE INDEX name ON table (...)]. *)
Definition create_index (name table : string) (db : database)
  : exn + database :=
  match catalog db !! table with
  | Some Table =>
      match create_object name Index db with
      | inl e => inl e
      | inr c =>
          inr (Database c (chr_map db) (background db) (regions db)
                        (random_rowid db))
      end
  | _ => inl (OperationalError (NoSuchTable table))
  end.

(** [DROP VIEW IF EXISTS name]. *)
Definition drop_view_if_exists (name : string) (db : database)
  : exn + database :=
  match catalog db !! name with
  | Some (View _) =>
      inr (Database (delete name (catalog db))
                    (chr_map db) (background db) (regions db)
                    (random_rowid db))
  | Some Table => inl (OperationalError (UseDropTable name))
  | _ => inr db
  end.

(** [CREATE VIEW name AS q]: the catalog records the SELECT, which is
    evaluated when the view is read (see [read_region_background_agg] and
    [read_total_bg_hops] below). *)
Definition create_view (name : string) (q : select) (db : database)
  : exn + database :=
  match create_object name (View q) db with
  | inl e => inl e
  | inr c =>
      inr (Database c (chr_map db) (background db) (regions db)
                    (random_rowid db))
  end.

(** *** INSERT *)

(** A UNIQUE (or non-rowid PRIMARY KEY) column rejects a value already
    stored; NULLs never collide.  [chr_map] has six such columns: refseq,
    igenomes, ensembl, ucsc (the primary key), mitra and numbered. *)
Definition taken {A} `{EqDecision B} (col : A → option B) (v : option B)
    (t : list A) : bool :=
  match v with
  | None => false
  | Some _ => bool_decide (v ∈ col <$> t)
  end.

Definition insert_chr_map (t : list ChrMap.row) (r : ChrMap.row)
  : exn + list ChrMap.row :=
  if ChrMap.seqlength r is None then inl (IntegrityError (NotNull "seqlength"))
  else if taken ChrMap.refseq (ChrMap.refseq r) t
          || taken ChrMap.igenomes (ChrMap.igenomes r) t
          || taken ChrMap.ensembl (ChrMap.ensembl r) t
          || taken ChrMap.ucsc (ChrMap.ucsc r) t
          || taken ChrMap.mitra (ChrMap.mitra r) t
          || taken ChrMap.numbered (ChrMap.numbered r) t
       then inl (IntegrityError (Unique "chr_map"))
  else inr (t ++ [r]).

(** The rowid of a row inserted without one: 1 in an empty table, else one
    more than the largest in use.  When the largest in use is the largest
    there is, the engine draws: the row goes in under the rowid drawn if
    that is positive and free, and the database counts as full
    otherwise. *)
Definition max_rowid : Z := 2 ^ 63 - 1.

Definition new_rowid (draw : list Z → option Z) (ids : list Z) : option Z :=
  match ids with
  | [] => Some 1
  | i :: ids' =>
      let m := foldr Z.max i ids' in
      if bool_decide (max_rowid ≤ m) then
        match draw ids with
        | Some v =>
            if bool_decide (1 ≤ v ≤ max_rowid ∧ v ∉ ids) then Some v else None
        | None => None
        end
      else Some (m + 1)
  end.

Definition assign_rowid (table : string) (draw : list Z → option Z)
    (ids : list Z) (i : option Z) : exn + Z :=
  match i with
  | Some v =>
      if bool_decide (v ∈ ids) then inl (IntegrityError (Unique table))
      else inr v
  | None =>
      match new_rowid draw ids with
      | Some v => inr v
      | None => inl (OperationalError DatabaseFull)
      end
  end.

(** A row put into a table that is kept in rowid order: before the first
    row with a larger rowid. *)
Fixpoint insert_by_rowid {T} (stored_id : T → Z) (r : T) (t : list T)
  : list T :=
  match t with
  | [] => [r]
  | r' :: t' =>
      if bool_decide (stored_id r < stored_id r') then r :: t
      else r' :: insert_by_rowid stored_id r t'
  end.

(** INSERT into a table whose [id] is the rowid: an explicit [id] must be
    unused, a missing one is assigned. *)
Definition insert_with_rowid {F T} (table : string)
    (draw : list Z → option Z) (stored_id : T → Z)
    (frame_id : F → option Z) (store : Z → F → T)
    (t : list T) (r : F) : exn + list T :=
  match assign_rowid table draw (stored_id <$> t) (frame_id r) with
  | inl e => inl e
  | inr v => inr (insert_by_rowid stored_id (store v r) t)
  end.

Definition insert_background (draw : list Z → option Z)
  : list (Background.row Z) → Background.row (option Z)
    → exn + list (Background.row Z) :=
  insert_with_rowid "background" draw Background.id Background.id
                    Background.with_id.

Definition insert_regions (draw : list Z → option Z)
  : list (Regions.row Z) → Regions.row (option Z)
    → exn + list (Regions.row Z) :=
  insert_with_rowid "regions" draw Regions.id Regions.id Regions.with_id.

(** The rows of one frame go in one after the other, in frame order; the
    first row that breaks a constraint raises. *)
Fixpoint insert_many {A R} (ins : list A → R → exn + list A)
    (t : list A) (rows : list R) : exn + list A :=
  match rows with
  | [] => inr t
  | r :: rows' =>
      match ins t r with
      | inl e => inl e
      | inr t' => insert_many ins t' rows'
      end
  end.

(** [df.to_sql(name, engine, if_exists='append', index=False)] on the table
    the method has just created: the frame is inserted in one transaction,
    so a failing row leaves the table as it was before the frame.  A frame
    that holds an integer outside 64 bits is refused as a whole; when such
    a frame also breaks a constraint, the constraint is what is
    reported. *)
Definition to_sql_chr_map (df : list ChrMap.row) (db : database)
  : exn + database :=
  match insert_many insert_chr_map (chr_map db) df with
  | inl e => inl e
  | inr t =>
      if forallb ChrMap.fits_int64 df
      then inr (Database (catalog db) t (background db) (regions db)
                         (random_rowid db))
      else inl ValueError
  end.

Definition to_sql_background (df : list (Background.row (option Z)))
    (db : database) : exn + database :=
  match insert_many (insert_background (random_rowid db)) (background db) df
  with
  | inl e => inl e
  | inr t =>
      if forallb Background.fits_int64 df
      then inr (Database (catalog db) (chr_map db) t (regions db)
                         (random_rowid db))
      else inl ValueError
  end.

Definition to_sql_regions (df : Regions.frame) (db : database)
  : exn + database :=
  match insert_many (insert_regions (random_rowid db)) (regions db)
                    (Regions.frame_rows df)
  with
  | inl e => inl e
  | inr t =>
      if forallb Regions.fits_int64 (Regions.frame_rows df)
      then inr (Database (catalog db) (chr_map db) (background db) t
                         (random_rowid db))
      else inl ValueError
  end.

(** ** The file system and the Python monad

    A path is the list of its components from the root; the root itself is
    the empty list and always a directory.  Symbolic links are not
    modelled. *)

Definition path : Type := list string.

Inductive node :=
  | Dir
  | DbFile (db : database)
  | OtherFile.

(** [entropy] is the source of the draws of a database the engine
    creates. *)
Record world := World {
  cwd : path;
  fs : gmap path node;
  entropy : list Z → option Z
}.

Definition lookup_node (w : world) (p : path) : option node :=
  match p with
  | [] => Some Dir
  | _ => fs w !! p
  end.

(** A computation on a state [S] that either returns or raises; the state
    it leaves behind is kept in both cases. *)
Definition M (S A : Type) : Type := S → (exn + A) * S.

Definition ret {S A} (a : A) : M S A := λ s, (inr a, s).
Definition raise {S A} (e : exn) : M S A := λ s, (inl e, s).
Definition bind {S A B} (m : M S A) (k : A → M S B) : M S B :=
  λ s,
    match m s with
    | (inl e, s') => (inl e, s')
    | (inr a, s') => k a s'
    end.

Declare Scope py_scope.
Delimit Scope py_scope with py.
Notation "x <- m ;; k" := (bind m (λ x, k))
  (at level 100, m at next level, right associativity) : py_scope.
Notation "m ;; k" := (bind m (λ _, k))
  (at level 100, right associativity) : py_scope.

(** [for x in xs: body x]. *)
Fixpoint for_each {S A} (xs : list A) (body : A → M S unit) : M S unit :=
  match xs with
  | [] => ret ()
  | x :: xs' => (body x ;; for_each xs' body)%py
  end.

(** A Python computation acts on the world. *)
Definition py (A : Type) : Type := M world A.

(** [pathlib]: a [PosixPath] is absolute or relative to the working
    directory. *)
Record PosixPath := {
  absolute : bool;
  parts : list string
}.

(** What a caller may pass for [db_loc]. *)
Inductive pyobj :=
  | PathObj (p : PosixPath)
  | StrObj (s : string)
  | NoneObj.

Definition normalize (parts : list string) : path :=
  foldl (λ acc c,
           if bool_decide (c = "..") then removelast acc
           else if bool_decide (c = "." ∨ c = "") then acc
           else acc ++ [c])
        [] parts.

(** [p.resolve()]: the absolute, normalised path. *)
Definition resolve (w : world) (p : PosixPath) : path :=
  normalize ((if absolute p then [] else cwd w) ++ parts p).

(** [p.parent]. *)
Definition parent (p : path) : path := removelast p.

(** [os.path.exists(p)]. *)
Definition path_exists (w : world) (p : path) : bool :=
  bool_decide (is_Some (lookup_node w p)).

(** SQLite opens the file behind the engine; a missing file in an existing
    directory starts as an empty database.  A file that is not a database
    is reported by sqlalchemy as a [DatabaseError]. *)
Definition open_database (w : world) (p : path) : exn + database :=
  match lookup_node w p with
  | Some (DbFile db) => inr db
  | Some Dir => inl (OperationalError UnableToOpen)
  | Some OtherFile => inl (DatabaseError NotADatabase)
  | None =>
      match lookup_node w (parent p) with
      | Some Dir => inr (fresh_database (entropy w))
      | _ => inl (OperationalError UnableToOpen)
      end
  end.

Definition write_database (p : path) (db : database) (w : world) : world :=
  World (cwd w) (<[p := DbFile db]> (fs w)) (entropy w).

(** [conn.execute(sql)] on a connection of the engine at [p] (statements
    commit one by one), and likewise the transaction of one [to_sql]. *)
Definition execute (p : path) (stmt : database → exn + database) : py unit :=
  λ w,
    match open_database w p with
    | inl e => (inl e, w)
    | inr db =>
        match stmt db with
        | inl e => (inl e, write_database p db w)
        | inr db' => (inr (), write_database p db' w)
        end
    end.

(** ** The class *)

(** Modelled from the spec: the base class [Resources] is not part of the
    sources at hand.  The spec's Resource Provider "supplies five fixed raw
    tabular payloads (chr-map; two background datasets; two regions
    datasets)"; the fields carry the attribute names [__init__] reads, each
    holding the frame [pd.read_csv] returns for the payload. *)
Record Resources := {
  yeast_chr_map : list ChrMap.row;
  yeast_background_adh1 : list (Background.row (option Z));
  yeast_background_sir4 : list (Background.row (option Z));
  yeast_promoters_yiming : Regions.frame;
  yeast_promoters_not_orf : Regions.frame
}.

(** An instance: the resources of the base class and the engine, which is
    determined by the path of the database file. *)
Record DatabaseAPINew := {
  resources : Resources;
  engine : path
}.

(** The bodies of the four methods.  Each statement goes through
    [self.engine]: [run stmt] stands for [conn.execute(sql)] on a connection
    of the engine, and for the transaction of one [to_sql]. *)
Module Body.
Section Body.
Context {S : Type} (run : (database → exn + database) → M S unit).
Local Open Scope py_scope.

Definition add_chr_map (chr_map_df : list ChrMap.row) : M S unit :=
  run create_table_chr_map ;;
  run (to_sql_chr_map chr_map_df).

Definition add_background
    (df_list : list (list (Background.row (option Z)))) : M S unit :=
  run create_table_background ;;
  run (create_index "background_index" "background") ;;
  for_each df_list (λ df, run (to_sql_background df)).

Definition add_regions (df_list : list Regions.frame) : M S unit :=
  run create_table_regions ;;
  run (create_index "regions_index" "regions") ;;
  for_each df_list (λ df, run (to_sql_regions df)).

Definition create_region_background_view : M S unit :=
  run (drop_view_if_exists "region_background_agg") ;;
  run (create_view "region_background_agg" SelectRegionBackgroundAgg) ;;
  run (drop_view_if_exists "total_bg_hops") ;;
  run (create_view "total_bg_hops" SelectTotalBgHops).

(** The four calls of [__init__], in its order. *)
Definition provision (res : Resources) : M S unit :=
  add_chr_map (yeast_chr_map res) ;;
  add_background [yeast_background_adh1 res; yeast_background_sir4 res] ;;
  add_regions [yeast_promoters_yiming res; yeast_promoters_not_orf res] ;;
  create_region_background_view.

End Body.
End Body.

Definition add_chr_map (self : DatabaseAPINew) (chr_map_df : list ChrMap.row)
  : py unit :=
  Body.add_chr_map (execute (engine self)) chr_map_df.

Definition add_background (self : DatabaseAPINew)
    (df_list : list (list (Background.row (option Z)))) : py unit :=
  Body.add_background (execute (engine self)) df_list.

Definition add_regions (self : DatabaseAPINew) (df_list : list Regions.frame)
  : py unit :=
  Body.add_regions (execute (engine self)) df_list.

Definition create_region_background_view (self : DatabaseAPINew) : py unit :=
  Body.create_region_background_view (execute (engine self)).

(** [DatabaseAPINew(db_loc)].  [super().__init__()] comes first and makes
    [res] available; it only reads the bundled payloads. *)
Definition __init__ (res : Resources) (db_loc : pyobj) : py DatabaseAPINew :=
  (db_loc <- (match db_loc with
              | PathObj p => λ w, (inr (resolve w p), w)
              | _ => raise AttributeError
              end) ;;
   exists_ <- (λ w, (inr (path_exists w (parent db_loc)), w)) ;;
   if negb exists_ then raise FileNotFoundError
   else
     let self := {| resources := res; engine := db_loc |} in
     add_chr_map self (yeast_chr_map res) ;;
     add_background self
       [yeast_background_adh1 res; yeast_background_sir4 res] ;;
     add_regions self
       [yeast_promoters_yiming res; yeast_promoters_not_orf res] ;;
     create_region_background_view self ;;
     ret self)%py.

(** The same statements run directly on a database value, with no file
    behind it. *)
Definition exec (stmt : database → exn + database) : M database unit :=
  λ db,
    match stmt db with
    | inl e => (inl e, db)
    | inr db' => (inr (), db')
    end.

(** ** The views *)

(** WHERE (x.chr = r.chr AND x.start BETWEEN r.start AND r.end), on a row
    of the join; [x] is all NULL when the join padded the region. *)
Definition hit (p : Regions.row Z * option (Background.row Z)) : bool :=
  Sql.holds
    (Sql.and (Sql.eq (p.2 ≫= Background.chr) (Regions.chr p.1))
             (Sql.between (p.2 ≫= Background.start)
                          (Regions.start p.1) (Regions.end_ p.1))).

(** GROUP BY regions_sample, background_sample, r.chr, r.start, r.end, r.id *)
Definition group_key (p : Regions.row Z * option (Background.row Z))
  : option string * option string * option string * option Z * option Z * Z :=
  (Regions.sample p.1, p.2 ≫= Background.sample, Regions.chr p.1,
   Regions.start p.1, Regions.end_ p.1, Regions.id p.1).

(** The SELECT list on one group.  The two columns outside the key,
    [r.name] and [r.common_name], are read off a row of the group. *)
Definition select_agg
    (g : (option string * option string * option string * option Z
          * option Z * Z)
         * list (Regions.row Z * option (Background.row Z))) : Agg.row :=
  let '(rs, xs, c, s, e, i) := g.1 in
  Agg.Row c s e (Z.of_nat (length g.2)) rs xs i
          (head g.2 ≫= λ p, Regions.name p.1)
          (head g.2 ≫= λ p, Regions.common_name p.1).

(** ORDER BY regions_sample, background_sample, chr, start *)
Definition order_key (a : Agg.row)
  : option string * (option string * (option string * option Z)) :=
  (Agg.regions_sample a, (Agg.background_sample a, (Agg.chr a, Agg.start a))).

Definition order_le
  : relation (option string * (option string * (option string * option Z))) :=
  Sql.lex (Sql.nulls_first String.le)
    (Sql.lex (Sql.nulls_first String.le)
       (Sql.lex (Sql.nulls_first String.le) (Sql.nulls_first Z.le))).

#[global] Instance order_le_dec : RelDecision order_le.
Proof. unfold order_le; apply _. Defined.

(** The ascending order of the GROUP BY key, term by term. *)
Definition group_le
  : relation (option string * option string * option string * option Z
              * option Z * Z) :=
  Sql.lex
    (Sql.lex
       (Sql.lex
          (Sql.lex
             (Sql.lex (Sql.nulls_first String.le) (Sql.nulls_first String.le))
             (Sql.nulls_first String.le))
          (Sql.nulls_first Z.le))
       (Sql.nulls_first Z.le))
    Z.le.

#[global] Instance group_le_dec : RelDecision group_le.
Proof. unfold group_le; apply _. Defined.

Definition joined (db : database)
  : list (Regions.row Z * option (Background.row Z)) :=
  Sql.left_join (regions db) (background db).

(** The rows of [region_background_agg]. *)
Definition region_background_agg (db : database) : list Agg.row :=
  Sql.order_by order_le order_key
    (select_agg
       <$> Sql.group_by group_le group_key
             (filter (λ p, hit p) (joined db))).

(** The rows of [total_bg_hops]:
    SELECT sample, COUNT( * ) as hops FROM background GROUP BY sample *)
Definition total_bg_hops (db : database) : list Total.row :=
  (λ g, Total.Row g.1 (Z.of_nat (length g.2)))
    <$> Sql.group_by (Sql.nulls_first String.le) Background.sample
          (background db).



(** ** The specification's words, to be compared with the code *)

(** The spec's match predicate: [x.chr == r.chr] and
    [r.start <= x.start <= r.end], on values that are present.  [x.end]
    plays no part. *)
Definition spec_hit (r : Regions.row Z) (x : Background.row Z) : Prop :=
  match Regions.chr r, Background.chr x,
        Regions.start r, Regions.end_ r, Background.start x with
  | Some c, Some c', Some lo, Some hi, Some s => c' = c ∧ lo ≤ s ≤ hi
  | _, _, _, _, _ => False
  end.

#[global] Instance spec_hit_dec r x : Decision (spec_hit r x).
Proof.
  unfold spec_hit.
  destruct (Regions.chr r), (Background.chr x), (Regions.start r),
    (Regions.end_ r), (Background.start x); apply _.
Defined.

(** Every pair of a stored region and a stored background event. *)
Definition spec_pairs (db : database)
  : list (Regions.row Z * Background.row Z) :=
  list_prod (regions db) (background db).

(** The spec's composite key (r.sample, x.sample, r.chr, r.start, r.end,
    r.id): two pairs fall in the same group when they agree on it, and a
    row of the view is keyed by a pair when its columns show it. *)
Definition same_group (p q : Regions.row Z * Background.row Z) : Prop :=
  Regions.sample p.1 = Regions.sample q.1
  ∧ Background.sample p.2 = Background.sample q.2
  ∧ Regions.chr p.1 = Regions.chr q.1
  ∧ Regions.start p.1 = Regions.start q.1
  ∧ Regions.end_ p.1 = Regions.end_ q.1
  ∧ Regions.id p.1 = Regions.id q.1.

Definition keyed_by (a : Agg.row) (p : Regions.row Z * Background.row Z)
  : Prop :=
  Agg.regions_sample a = Regions.sample p.1
  ∧ Agg.background_sample a = Background.sample p.2
  ∧ Agg.chr a = Regions.chr p.1
  ∧ Agg.start a = Regions.start p.1
  ∧ Agg.end_ a = Regions.end_ p.1
  ∧ Agg.region_id a = Regions.id p.1.

(** The matched pairs that share the key of the pair [p]. *)
Definition spec_members (db : database)
    (p : Regions.row Z * Background.row Z)
  : list (Regions.row Z * Background.row Z) :=
  filter (λ q, spec_hit q.1 q.2 ∧ same_group q p) (spec_pairs db).

(** The spec's order of the view: ascending by regions_sample, then
    background_sample, then chr, then start.  Text compares byte by byte,
    and a missing value comes before any value. *)
Definition text_before (a b : option string) : Prop :=
  match a, b with
  | None, Some _ => True
  | Some u, Some v => String.compare u v = Lt
  | _, None => False
  end.

Definition int_not_after (a b : option Z) : Prop :=
  match a, b with
  | None, _ => True
  | Some u, Some v => u ≤ v
  | Some _, None => False
  end.

Definition spec_ascending (a b : Agg.row) : Prop :=
  text_before (Agg.regions_sample a) (Agg.regions_sample b)
  ∨ (Agg.regions_sample a = Agg.regions_sample b
     ∧ (text_before (Agg.background_sample a) (Agg.background_sample b)
        ∨ (Agg.background_sample a = Agg.background_sample b
           ∧ (text_before (Agg.chr a) (Agg.chr b)
              ∨ (Agg.chr a = Agg.chr b
                 ∧ int_not_after (Agg.start a) (Agg.start b)))))).

(** The columns of a row apart from its [id], as a frame supplies them and
    as a SELECT shows them. *)
Definition background_columns {I} (r : Background.row I)
  : option string * option Z * option Z * option Z * option string
    * option string * option string :=
  (Background.chr r, Background.start r, Background.end_ r,
   Background.depth r, Background.strand r, Background.annotation r,
   Background.sample r).

(** For [regions], apart from [id] and from [common_name], which the INSERT
    may fill in. *)
Definition regions_columns {I} (r : Regions.row I)
  : option string * option Z * option Z * option string * option spec_float
    * option string * option string :=
  (Regions.chr r, Regions.start r, Regions.end_ r, Regions.name r,
   Regions.score r, Regions.strand r, Regions.sample r).

(** The [common_name] a row of a frame is stored with: the frame's value
    when the frame has the column, the DEFAULT of the table otherwise. *)
Definition stored_common_name (df : Regions.frame)
    (r : Regions.row (option Z)) : option string :=
  if Regions.has_common_name df then Regions.common_name r else Some "none".

(** What a stored row of [regions] shows, and what the rows of a frame are
    to show once stored. *)
Definition regions_row_values (r : Regions.row Z) :=
  (regions_columns r, Regions.common_name r).

Definition regions_frame_values (df : Regions.frame) :=
  (λ r, (regions_columns r, stored_common_name df r)) <$> Regions.rows df.

(** The INTEGER values of a frame are 64-bit integers. *)
Definition int64 (v : option Z) : Prop :=
  from_option (λ v, - 2 ^ 63 ≤ v < 2 ^ 63) True v.

Definition chr_map_fits (df : list ChrMap.row) : Prop :=
  Forall (λ r, int64 (ChrMap.seqlength r)) df.

Definition background_fits (df : list (Background.row (option Z))) : Prop :=
  Forall (λ r, int64 (Background.id r) ∧ int64 (Background.start r)
               ∧ int64 (Background.end_ r) ∧ int64 (Background.depth r)) df.

Definition regions_fits (df : Regions.frame) : Prop :=
  Forall (λ r, int64 (Regions.id r) ∧ int64 (Regions.start r)
               ∧ int64 (Regions.end_ r)) (Regions.rows df).

(** The composite key of a view row. *)
Definition agg_key (a : Agg.row)
  : option string * option string * option string * option Z * option Z * Z :=
  (Agg.regions_sample a, Agg.background_sample a, Agg.chr a, Agg.start a,
   Agg.end_ a, Agg.region_id a).

(** FROM regions AS r JOIN background AS x: the inner join, with no padded
    rows. *)
Definition inner_join {A B} (l : list A) (r : list B) : list (A * option B) :=
  a ← l; (λ b, (a, Some b)) <$> r.

(** What the schema guarantees about stored rows: [id] is the primary key
    of [background] and of [regions]. *)
Definition db_ok (db : database) : Prop :=
  NoDup (Background.id <$> background db) ∧ NoDup (Regions.id <$> regions db).

(** ** A small instance

    The scenario of the spec: one chromosome, one background event at 100,
    one region [50, 200], provisioned into /tmp/test.db. *)

Definition chrI : ChrMap.row :=
  ChrMap.Row (Some "chrI") (Some "chrI") (Some "chrI") (Some "chrI")
             (Some "chrI") (Some 230218) (Some "chrI").

(** A chromosome row whose seqlength is 0. *)
Definition chrM : ChrMap.row :=
  ChrMap.Row (Some "chrM") (Some "chrM") (Some "chrM") (Some "chrM")
             (Some "chrM") (Some 0) (Some "chrM").

Definition hop_at (pos : Z) : Background.row (option Z) :=
  Background.Row None (Some "chrI") (Some pos) (Some pos) None None None
                 (Some "bg1").

Definition promoter : Regions.row (option Z) :=
  Regions.Row None (Some "chrI") (Some 50) (Some 200) (Some "YAL001") None
              None (Some "reg1") None.

Definition scenario : Resources := {|
  yeast_chr_map := [chrI];
  yeast_background_adh1 := [hop_at 100];
  yeast_background_sir4 := [];
  yeast_promoters_yiming := Regions.Frame false [promoter];
  yeast_promoters_not_orf := Regions.Frame false []
|}.

Definition tmp_world : world :=
  World ["home"] {[ ["tmp"] := Dir ]} (λ _, None).

Definition test_db : PosixPath :=
  {| absolute := true; parts := ["tmp"; "test.db"] |}.

Definition test_db_path : path := ["tmp"; "test.db"].

Definition test_api : DatabaseAPINew :=
  {| resources := scenario; engine := test_db_path |}.

Definition provisioned_catalog : gmap string kind :=
  list_to_map
    [("chr_map", Table); ("background", Table); ("background_index", Index);
     ("regions", Table); ("regions_index", Index);
     ("region_background_agg", View SelectRegionBackgroundAgg);
     ("total_bg_hops", View SelectTotalBgHops)].

(** The database of the scenario, and the one with the event at 300,
    outside the region. *)
Definition stored_promoter : Regions.row Z :=
  Regions.with_id 1 (Regions.fill true promoter).

Definition scenario_db : database :=
  Database provisioned_catalog [chrI] [Background.with_id 1 (hop_at 100)]
           [stored_promoter] (λ _, None).

Definition no_overlap_db : database :=
  Database provisioned_catalog [chrI] [Background.with_id 1 (hop_at 300)]
           [stored_promoter] (λ _, None).

Definition provisioned_world : world :=
  write_database test_db_path scenario_db tmp_world.

(** A relative path under a directory that is not there. *)
Definition missing_db : PosixPath :=
  {| absolute := false; parts := ["missing"; "test.db"] |}.

(** A chromosome row without a seqlength. *)
Definition chr_unknown : ChrMap.row :=
  ChrMap.Row None None None (Some "chrU") None None None.

(** The database stored at a path, if there is one. *)
Definition database_at (w : world) (p : path) : option database :=
  match lookup_node w p with
  | Some (DbFile db) => Some db
  | _ => None
  end.


(** No value occurs twice in the column, NULLs aside. *)
Definition unique_col {A B} (col : A → option B) (t : list A) : Prop :=
  NoDup (omap col t).

(** What the CREATE TABLE of [chr_map] asks of its rows: seqlength NOT
    NULL, and refseq, igenomes, ensembl, ucsc (the primary key), mitra and
    numbered each UNIQUE. *)
Definition chr_map_ok (t : list ChrMap.row) : Prop :=
  Forall (λ r, is_Some (ChrMap.seqlength r)) t
  ∧ unique_col ChrMap.refseq t ∧ unique_col ChrMap.igenomes t
  ∧ unique_col ChrMap.ensembl t ∧ unique_col ChrMap.ucsc t
  ∧ unique_col ChrMap.mitra t ∧ unique_col ChrMap.numbered t.




(** The total of a column of counts. *)
Definition sum_Z (l : list Z) : Z := foldr Z.add 0 l.

(** ** Predicates of the proofs *)

(** The database [db] is stored at [p]. *)
Definition at_db (w : world) (p : path) (db : database) : Prop :=
  p ≠ [] ∧ fs w !! p = Some (DbFile db).

(** The computation [m] acts on the file at [p] as [s] acts on its
    database. *)
Definition lifts {A} (p : path) (m : py A) (s : M database A) : Prop :=
  ∀ w db, at_db w p db → m w = ((s db).1, write_database p (s db).2 w).

(** The first statement of a method opens the file, creating it when it is
    missing; from then on the database is at the path. *)
Definition opening {A} (p : path) (m : py A) : Prop :=
  ∀ w db, open_database w p = inr db → m w = m (write_database p db w).

(** The exceptions of the engine and of [to_sql], as opposed to the two
    the constructor raises itself. *)
Definition sql_error (e : exn) : Prop :=
  match e with
  | OperationalError _ | DatabaseError _ | IntegrityError _ | ValueError =>
      True
  | AttributeError | FileNotFoundError => False
  end.

Definition raises_sql {A} (s : M database A) : Prop :=
  ∀ db e db', s db = (inl e, db') → sql_error e.

(** * Properties *)

(** ** Facts about the relational operators *)

Section list_facts.
Context {A : Type}.

Lemma filter_fmap {B} (f : A → B) (P : B → Prop) `{!∀ b, Decision (P b)}
    (l : list A) :
  filter P (f <$> l) = f <$> filter (λ a, P (f a)) l.
Proof.
  induction l as [|a l IH]; [done|].
  rewrite fmap_cons, !filter_cons. destruct (decide (P (f a))).
  - by rewrite fmap_cons, IH.
  - done.
Qed.

Lemma filter_eq_NoDup `{!EqDecision A} (l : list A) (k : A) :
  NoDup l →
  filter (λ k', k' = k) l = if decide (k ∈ l) then [k] else [].
Proof.
  induction 1 as [|a l Hnotin Hnd IH].
  - rewrite decide_False; [done|]. by intros ?%elem_of_nil.
  - rewrite filter_cons. destruct (decide (a = k)) as [->|Hne].
    + rewrite IH. rewrite (decide_False (P := k ∈ l)) by done.
      rewrite decide_True; [done|]. left.
    + rewrite IH. destruct (decide (k ∈ l)) as [Hin|Hin].
      * rewrite decide_True; [done|]. by right.
      * rewrite decide_False; [done|].
        intros [?|?]%elem_of_cons; [congruence|done].
Qed.

Lemma insert_by_Permutation (R : relation A) `{!RelDecision R} (a : A)
    (l : list A) :
  Sql.insert_by R a l ≡ₚ a :: l.
Proof.
  induction l as [|b l IH]; simpl; [done|].
  destruct (decide (R a b)); [done|]. by rewrite IH, Permutation_swap.
Qed.

Lemma insert_by_sorted (R : relation A)
    `{!RelDecision R, !Transitive R, !Total R} (a : A) (l : list A) :
  StronglySorted R l → StronglySorted R (Sql.insert_by R a l).
Proof.
  induction 1 as [|b l Hl IH Hb]; simpl.
  - repeat constructor.
  - destruct (decide (R a b)) as [Hab|Hab].
    + constructor; [by constructor|]. constructor; [done|].
      eapply Forall_impl; [exact Hb|]. intros c Hbc. by etrans.
    + constructor; [done|]. rewrite insert_by_Permutation.
      constructor; [|done]. by destruct (total R a b).
Qed.

Lemma order_by_Permutation {K} (R : relation K) `{!RelDecision R}
    (key : A → K) (l : list A) :
  Sql.order_by R key l ≡ₚ l.
Proof.
  unfold Sql.order_by. induction l as [|a l IH]; simpl; [done|].
  by rewrite insert_by_Permutation, IH.
Qed.

Lemma order_by_sorted {K} (R : relation K)
    `{!RelDecision R, !Transitive R, !Total R} (key : A → K) (l : list A) :
  StronglySorted (λ a b, R (key a) (key b)) (Sql.order_by R key l).
Proof.
  unfold Sql.order_by. induction l as [|a l IH]; simpl; [constructor|].
  apply insert_by_sorted; [|intros x y; apply (total R)|done].
  intros x y z. apply transitivity.
Qed.

Lemma filter_order_by {K} (R : relation K) `{!RelDecision R} (key : A → K)
    (P : A → Prop) `{!∀ a, Decision (P a)} (l : list A) :
  filter P (Sql.order_by R key l) ≡ₚ filter P l.
Proof. by rewrite order_by_Permutation. Qed.

Lemma elem_of_order_by {K} (R : relation K) `{!RelDecision R} (key : A → K)
    (l : list A) (a : A) :
  a ∈ Sql.order_by R key l ↔ a ∈ l.
Proof. by rewrite order_by_Permutation. Qed.

End list_facts.

Section group_by_facts.
Context {A K : Type} `{!EqDecision K} (R : relation K) `{!RelDecision R}
  (key : A → K).

Lemma group_by_keys (l : list A) :
  (Sql.group_by R key l).*1 ≡ₚ remove_dups (key <$> l).
Proof.
  unfold Sql.group_by. rewrite <-list_fmap_compose.
  rewrite (list_fmap_ext _ id _ (λ _ _ _, eq_refl)), list_fmap_id.
  apply order_by_Permutation.
Qed.

Lemma group_by_lookup (l : list A) (k : K) :
  filter (λ g, g.1 = k) (Sql.group_by R key l)
  = if decide (k ∈ key <$> l) then [(k, filter (λ a, key a = k) l)] else [].
Proof.
  unfold Sql.group_by. rewrite filter_fmap. simpl.
  rewrite (filter_eq_NoDup _ k)
    by (rewrite order_by_Permutation; apply NoDup_remove_dups).
  destruct (decide (k ∈ Sql.order_by R id (remove_dups (key <$> l))))
    as [Hin|Hin]; rewrite elem_of_order_by, elem_of_remove_dups in Hin.
  - by rewrite decide_True.
  - by rewrite decide_False.
Qed.

Lemma elem_of_group_by (l : list A) (g : K * list A) :
  g ∈ Sql.group_by R key l ↔
  g.1 ∈ key <$> l ∧ g.2 = filter (λ a, key a = g.1) l.
Proof.
  unfold Sql.group_by. rewrite list_elem_of_fmap. split.
  - intros (k & -> & Hk). simpl. split; [|done].
    by rewrite elem_of_order_by, elem_of_remove_dups in Hk.
  - intros [Hk Hg]. exists g.1. split.
    + destruct g as [k members]. simpl in *. by subst.
    + by rewrite elem_of_order_by, elem_of_remove_dups.
Qed.

End group_by_facts.

(** ** The join and its WHERE clause *)

Lemma hit_padded (r : Regions.row Z) : hit (r, None) = false.
Proof. unfold hit; simpl. by destruct (Regions.chr r). Qed.

(** The WHERE clause of the view, in three-valued logic, is true exactly
    when the spec's predicate holds. *)
Lemma hit_spec_hit (r : Regions.row Z) (x : Background.row Z) :
  hit (r, Some x) ↔ spec_hit r x.
Proof.
  unfold hit, spec_hit, Sql.between, Sql.eq, Sql.ge, Sql.le; simpl.
  destruct (Regions.chr r) as [c|], (Background.chr x) as [c'|],
    (Regions.start r) as [lo|], (Regions.end_ r) as [hi|],
    (Background.start x) as [s|]; simpl;
    repeat match goal with
           | |- context [bool_decide ?P] => destruct (bool_decide_reflect P)
           end; simpl; intuition (auto; lia).
Qed.

Lemma elem_of_left_join {A B} (l : list A) (r : list B) (a : A) (b : B) :
  (a, Some b) ∈ Sql.left_join l r ↔ a ∈ l ∧ b ∈ r.
Proof.
  unfold Sql.left_join. rewrite list_elem_of_bind. split.
  - intros (a' & Hin & Ha'). destruct r as [|b0 r].
    + apply list_elem_of_singleton in Hin. congruence.
    + apply list_elem_of_fmap in Hin as (b' & [= -> ->] & Hb'). done.
  - intros [Ha Hb]. exists a. split; [|done]. destruct r as [|b0 r].
    + by apply elem_of_nil in Hb.
    + apply list_elem_of_fmap. by exists b.
Qed.

(** A row of the join that passes the WHERE clause pairs a stored region
    with a stored background event that the spec's predicate accepts. *)
Lemma elem_of_hits (db : database)
    (p : Regions.row Z * option (Background.row Z)) :
  p ∈ filter (λ p, hit p) (joined db) ↔
  ∃ r x, p = (r, Some x) ∧ r ∈ regions db ∧ x ∈ background db ∧ spec_hit r x.
Proof.
  rewrite list_elem_of_filter. unfold joined. split.
  - intros [Hhit Hin]. destruct p as [r [x|]].
    + exists r, x. apply elem_of_left_join in Hin as [? ?].
      by apply hit_spec_hit in Hhit.
    + by rewrite hit_padded in Hhit.
  - intros (r & x & -> & Hr & Hx & Hs). split.
    + by apply hit_spec_hit.
    + by apply elem_of_left_join.
Qed.

(** With this WHERE clause the LEFT JOIN keeps the rows of the inner join
    and no others. *)
Lemma left_join_inner (db : database) :
  filter (λ p, hit p) (joined db)
  = filter (λ p, hit p) (inner_join (regions db) (background db)).
Proof.
  unfold joined, Sql.left_join, inner_join.
  destruct (background db) as [|x xs]; [|done].
  induction (regions db) as [|r rs IH]; [done|].
  cbn [mbind list_bind]. rewrite !filter_app, IH.
  rewrite filter_cons, hit_padded. done.
Qed.

Lemma row_hits (r : Regions.row Z) (xs : list (Background.row Z)) :
  filter (λ p, hit p) ((λ b, (r, Some b)) <$> xs)
  = (λ q, (q.1, Some q.2))
      <$> filter (λ q, spec_hit q.1 q.2) (map (λ y, (r, y)) xs).
Proof.
  induction xs as [|x xs IH]; [done|].
  rewrite fmap_cons. cbn [map]. rewrite !filter_cons, IH. simpl.
  destruct (decide (hit (r, Some x))) as [Hh|Hh],
    (decide (spec_hit r x)) as [Hs|Hs]; try done.
  - by apply hit_spec_hit in Hh.
  - by apply hit_spec_hit in Hs.
Qed.

(** The rows of the join that pass the WHERE clause are the pairs of a
    region and a background event that the spec's predicate accepts, in the
    order of the product. *)
Lemma left_join_hits (rs : list (Regions.row Z))
    (xs : list (Background.row Z)) :
  filter (λ p, hit p) (Sql.left_join rs xs)
  = (λ q, (q.1, Some q.2)) <$> filter (λ q, spec_hit q.1 q.2) (list_prod rs xs).
Proof.
  unfold Sql.left_join. induction rs as [|r rs IH]; [done|].
  cbn [mbind list_bind list_prod]. rewrite !filter_app, fmap_app, IH.
  f_equal. destruct xs as [|x xs].
  - by rewrite filter_cons, hit_padded.
  - apply row_hits.
Qed.

Lemma same_group_group_key (q p : Regions.row Z * Background.row Z) :
  same_group q p ↔ group_key (q.1, Some q.2) = group_key (p.1, Some p.2).
Proof.
  unfold same_group, group_key; simpl. split.
  - intros (-> & -> & -> & -> & -> & ->). done.
  - intros [= -> -> -> -> -> ->]. done.
Qed.

Lemma agg_key_select_agg g : agg_key (select_agg g) = g.1.
Proof. by destruct g as [[[[[[rs xs] c] s] e] i] members]. Qed.

(** The rows of the view with key [k]: one row, counting the matched pairs
    with that key, when there is such a pair; none otherwise. *)
Lemma region_background_agg_lookup (db : database) k :
  let members :=
    filter (λ p, group_key p = k) (filter (λ p, hit p) (joined db)) in
  filter (λ a, agg_key a = k) (region_background_agg db)
  = if decide (k ∈ group_key <$> filter (λ p, hit p) (joined db))
    then [select_agg (k, members)] else [].
Proof.
  intros members. unfold region_background_agg.
  pose proof (filter_order_by order_le order_key (λ a, agg_key a = k)
    (select_agg <$>
       Sql.group_by group_le group_key (filter (λ p, hit p) (joined db))))
    as Hperm.
  rewrite filter_fmap in Hperm.
  rewrite (list_filter_iff _ (λ g, g.1 = k)) in Hperm
    by (intros g; by rewrite agg_key_select_agg).
  rewrite group_by_lookup in Hperm.
  destruct (decide (k ∈ group_key <$> filter (λ p, hit p) (joined db))).
  - by apply Permutation_singleton_r in Hperm.
  - by apply Permutation_nil_r in Hperm.
Qed.

(** Every row of the view carries the key of a stored region and a stored
    background event that the spec's predicate accepts. *)
Lemma region_background_agg_sound (db : database) (a : Agg.row) :
  a ∈ region_background_agg db →
  ∃ r x, r ∈ regions db ∧ x ∈ background db ∧ spec_hit r x ∧
         agg_key a = group_key (r, Some x).
Proof.
  intros Ha. unfold region_background_agg in Ha.
  apply elem_of_order_by in Ha.
  apply list_elem_of_fmap in Ha as (g & -> & Hg).
  apply elem_of_group_by in Hg as [Hk _].
  apply list_elem_of_fmap in Hk as (p & Hp & Hin).
  apply elem_of_hits in Hin as (r & x & -> & Hr & Hx & Hs).
  exists r, x. rewrite agg_key_select_agg. done.
Qed.

(** The columns of a view row show the key of a pair exactly when the
    row's composite key is the GROUP BY key of the pair. *)
Lemma keyed_by_agg_key (a : Agg.row) (p : Regions.row Z * Background.row Z) :
  keyed_by a p ↔ agg_key a = group_key (p.1, Some p.2).
Proof.
  unfold keyed_by, agg_key, group_key; simpl. split.
  - intros (-> & -> & -> & -> & -> & ->). done.
  - intros [= -> -> -> -> -> ->]. done.
Qed.

(** The members of a group of the view are the matched pairs of the spec
    with the key of the group. *)
Lemma group_members_spec (db : database)
    (p : Regions.row Z * Background.row Z) :
  filter (λ q, group_key q = group_key (p.1, Some p.2))
         (filter (λ q, hit q) (joined db))
  = (λ q, (q.1, Some q.2)) <$> spec_members db p.
Proof.
  unfold joined, spec_members, spec_pairs.
  rewrite left_join_hits, filter_fmap, list_filter_filter. f_equal.
  apply list_filter_iff. intros q; simpl.
  rewrite same_group_group_key. tauto.
Qed.

(** ** Claims about the views *)

(** C3.  For every sample label [s], the rows of [total_bg_hops] with label
    [s] are exactly one row, whose [hops] is the number of rows of
    [background] carrying [s], when some row of [background] carries [s],
    and no row at all when none does. *)
Theorem total_bg_hops_per_sample (db : database) (s : option string) :
  filter (λ t, Total.sample t = s) (total_bg_hops db)
  = if decide (s ∈ Background.sample <$> background db)
    then [Total.Row s
            (Z.of_nat (length (filter (λ x, Background.sample x = s)
                                      (background db))))]
    else [].
Proof.
  unfold total_bg_hops. rewrite filter_fmap. simpl.
  rewrite group_by_lookup. by destruct (decide _).
Qed.

(** C1.  For every stored region [r] and stored background event [x] with
    the same chromosome and [r.start <= x.start <= r.end], the view has
    exactly one row whose columns regions_sample, background_sample, chr,
    start, end and region_id are r.sample, x.sample, r.chr, r.start, r.end
    and r.id; its [background_hops] is the number of pairs of a stored
    region and a stored background event that match in the same way and
    agree with (r, x) on those six values, and (r, x) is one of them.
    Conversely every row of the view shows the six values of such a pair,
    so none stands for a chromosome mismatch or a start outside the closed
    interval. *)
Theorem region_background_agg_interval_join (db : database) :
  (∀ r x,
     r ∈ regions db → x ∈ background db → spec_hit r x →
     (r, x) ∈ spec_members db (r, x) ∧
     ∃ a, filter (λ a, keyed_by a (r, x)) (region_background_agg db) = [a] ∧
          Agg.background_hops a
          = Z.of_nat (length (spec_members db (r, x))))
  ∧ (∀ a,
       a ∈ region_background_agg db →
       ∃ r x, r ∈ regions db ∧ x ∈ background db ∧ spec_hit r x ∧
              keyed_by a (r, x)).
Proof.
  split.
  - intros r x Hr Hx Hs. split.
    + apply list_elem_of_filter. split; [by split|].
      apply list_elem_of_In, in_prod; by apply list_elem_of_In.
    + set (k := group_key (r, Some x)).
      set (members :=
             filter (λ p, group_key p = k) (filter (λ p, hit p) (joined db))).
      exists (select_agg (k, members)). split.
      * rewrite (list_filter_iff _ (λ a, agg_key a = k))
          by (intros a; apply (keyed_by_agg_key a (r, x))).
        rewrite region_background_agg_lookup. rewrite decide_True; [done|].
        apply list_elem_of_fmap. exists (r, Some x). split; [done|].
        apply elem_of_hits. by exists r, x.
      * transitivity (Z.of_nat (length members)).
        { unfold k. by destruct (group_key (r, Some x))
            as [[[[[? ?] ?] ?] ?] ?]. }
        pose proof (group_members_spec db (r, x)) as Hm.
        cbn [fst snd] in Hm. unfold members, k.
        by rewrite Hm, length_fmap.
  - intros a Ha.
    apply region_background_agg_sound in Ha as (r & x & Hr & Hx & Hs & Hk).
    exists r, x. split; [done|]. split; [done|]. split; [done|].
    by apply (keyed_by_agg_key a (r, x)).
Qed.

(** *** The order of ORDER BY is a total preorder *)

Section order_facts.
Context {A B : Type} (RA : relation A) (RB : relation B).

#[global] Instance nulls_first_total `{!Total RA} :
  Total (Sql.nulls_first RA).
Proof. intros [u|] [v|]; simpl; first [apply (total RA) | auto]. Qed.

#[global] Instance nulls_first_trans `{!Transitive RA} :
  Transitive (Sql.nulls_first RA).
Proof. intros [u|] [v|] [w|]; simpl; try done. apply transitivity. Qed.

#[global] Instance nulls_first_antisymm `{!AntiSymm (=) RA} :
  AntiSymm (=) (Sql.nulls_first RA).
Proof.
  intros [u|] [v|]; simpl; try done.
  intros ? ?. f_equal. by apply (anti_symm RA).
Qed.

#[global] Instance lex_total `{!EqDecision A, !Total RA, !Total RB} :
  Total (Sql.lex RA RB).
Proof.
  intros [a b] [a' b']. unfold Sql.lex; simpl.
  destruct (decide (a = a')) as [->|Hne].
  - destruct (total RB b b'); auto.
  - destruct (total RA a a'); auto.
Qed.

#[global] Instance lex_trans
    `{!Transitive RA, !AntiSymm (=) RA, !Transitive RB} :
  Transitive (Sql.lex RA RB).
Proof.
  intros [a1 b1] [a2 b2] [a3 b3]. unfold Sql.lex; simpl.
  intros [[H12 Hne12]|[-> H12]] [[H23 Hne23]|[-> H23]].
  - left. split; [by etrans|]. intros ->.
    apply Hne12. by apply (anti_symm RA).
  - left. done.
  - left. done.
  - right. split; [done|]. by etrans.
Qed.

End order_facts.

#[global] Instance order_le_total : Total order_le.
Proof. unfold order_le. apply _. Qed.

#[global] Instance order_le_trans : Transitive order_le.
Proof. unfold order_le. apply _. Qed.

Lemma StronglySorted_impl {A} (R R' : relation A) (l : list A) :
  (∀ a b, R a b → R' a b) → StronglySorted R l → StronglySorted R' l.
Proof.
  intros HR. induction 1 as [|a l Hl IH Ha]; constructor; [done|].
  eapply Forall_impl; [exact Ha|]. auto.
Qed.

(** The order of one ORDER BY term on text, where the terms differ, is the
    spec's "comes before". *)
Lemma text_before_nulls_first (a b : option string) :
  Sql.nulls_first String.le a b → a ≠ b → text_before a b.
Proof.
  destruct a as [u|], b as [v|]; simpl; try done.
  unfold String.le, String.leb. intros Hle Hne.
  destruct (String.compare u v) eqn:Hc; [|done..].
  apply String.compare_eq_iff in Hc. congruence.
Qed.

Lemma int_not_after_nulls_first (a b : option Z) :
  Sql.nulls_first Z.le a b → int_not_after a b.
Proof. by destruct a, b. Qed.

Lemma spec_ascending_order_le (a b : Agg.row) :
  order_le (order_key a) (order_key b) → spec_ascending a b.
Proof.
  unfold order_le, order_key, spec_ascending, Sql.lex; simpl.
  intros [[H1 Hne1]|[-> [[H2 Hne2]|[-> [[H3 Hne3]|[-> H4]]]]]].
  - left. by apply text_before_nulls_first.
  - right. split; [done|]. left. by apply text_before_nulls_first.
  - right. split; [done|]. right. split; [done|]. left.
    by apply text_before_nulls_first.
  - right. split; [done|]. right. split; [done|]. right. split; [done|].
    by apply int_not_after_nulls_first.
Qed.

(** C5.  The rows of [region_background_agg] are in ascending order of the
    four-part key (regions_sample, background_sample, chr, start): of two
    rows, the one listed first has the smaller regions_sample, or the same
    regions_sample and the smaller background_sample, or the same two and
    the smaller chr, or the same three and a start that is not larger;
    text compares byte by byte and a missing value comes before any
    value. *)
Theorem region_background_agg_ordered (db : database) :
  StronglySorted spec_ascending (region_background_agg db).
Proof.
  unfold region_background_agg.
  eapply StronglySorted_impl; [apply spec_ascending_order_le|].
  apply (order_by_sorted order_le order_key).
Qed.

Lemma NoDup_fmap_eq {A B} (f : A → B) (l : list A) (x y : A) :
  NoDup (f <$> l) → x ∈ l → y ∈ l → f x = f y → x = y.
Proof.
  induction l as [|a l IH]; [by intros _ ?%elem_of_nil|].
  rewrite fmap_cons, NoDup_cons.
  intros [Ha Hnd] [->|Hx]%elem_of_cons [->|Hy]%elem_of_cons Heq; auto.
  - destruct Ha. rewrite Heq. by apply list_elem_of_fmap_2.
  - destruct Ha. rewrite <-Heq. by apply list_elem_of_fmap_2.
Qed.

(** C2.  On stored tables ([id] a primary key), for a region [r] and a
    background sample label [s] such that no background event with label
    [s] matches [r], the view has no row for region [r] with
    background_sample [s]; and the rows of the left join that pass the
    WHERE clause are those of the inner join. *)
Theorem region_background_agg_unmatched (db : database)
    (r : Regions.row Z) (s : option string) :
  db_ok db →
  r ∈ regions db →
  (∀ x, x ∈ background db → Background.sample x = s → ¬ spec_hit r x) →
  (∀ a, a ∈ region_background_agg db →
        ¬ (Agg.region_id a = Regions.id r ∧ Agg.background_sample a = s))
  ∧ filter (λ p, hit p) (joined db)
    = filter (λ p, hit p) (inner_join (regions db) (background db)).
Proof.
  intros [_ Hids] Hr Hnone. split; [|apply left_join_inner].
  intros a Ha [Hid Hs].
  apply region_background_agg_sound in Ha as (r' & x & Hr' & Hx & Hhit & Hk).
  unfold agg_key, group_key in Hk; simpl in Hk.
  injection Hk as _ Hxs _ _ _ Hrid.
  assert (r' = r) as ->.
  { apply (NoDup_fmap_eq Regions.id (regions db)); [done..|congruence]. }
  apply (Hnone x); [done|congruence|done].
Qed.

(** ** From the file system to the database

    Every statement of the class goes through [execute] on the path of the
    engine, so a method acts on the world as its body acts on the database
    stored at that path. *)

Lemma lookup_node_at_db w p db : at_db w p db → lookup_node w p = Some (DbFile db).
Proof. intros [Hp Hdb]. by destruct p. Qed.

Lemma write_database_id w p db : at_db w p db → write_database p db w = w.
Proof.
  intros [_ Hdb]. destruct w as [c f]. unfold write_database; simpl in *.
  f_equal. by apply insert_id.
Qed.

Lemma write_database_twice p db1 db2 w :
  write_database p db2 (write_database p db1 w) = write_database p db2 w.
Proof. unfold write_database; simpl. f_equal. apply insert_insert_eq. Qed.

Lemma at_db_write p db w : p ≠ [] → at_db (write_database p db w) p db.
Proof. intros Hp. split; [done|]. simpl. apply lookup_insert_eq. Qed.

Lemma open_database_at_db w p db : at_db w p db → open_database w p = inr db.
Proof. intros H. unfold open_database. by rewrite (lookup_node_at_db _ _ db). Qed.

Lemma open_database_nonroot w p db : open_database w p = inr db → p ≠ [].
Proof. by intros H ->. Qed.

Lemma lifts_execute p stmt : lifts p (execute p stmt) (exec stmt).
Proof.
  intros w db Hdb. unfold execute, exec.
  rewrite (open_database_at_db _ _ db) by done.
  destruct (stmt db); simpl; [|done]. by rewrite write_database_id.
Qed.

Lemma lifts_ret {A} p (a : A) : lifts p (ret a) (ret a).
Proof. intros w db Hdb. unfold ret; simpl. by rewrite write_database_id. Qed.

Lemma lifts_bind {A B} p (m : py A) (k : A → py B) s t :
  lifts p m s → (∀ a, lifts p (k a) (t a)) → lifts p (bind m k) (bind s t).
Proof.
  intros Hm Hk w db Hdb. unfold bind. rewrite (Hm w db Hdb).
  destruct (s db) as [[e|a] db1]; simpl; [done|].
  rewrite (Hk a _ db1) by (apply at_db_write, Hdb).
  by rewrite write_database_twice.
Qed.

Lemma lifts_for_each {A} p (xs : list A) body sbody :
  (∀ x, lifts p (body x) (sbody x)) →
  lifts p (for_each xs body) (for_each xs sbody).
Proof.
  intros Hbody. induction xs as [|x xs IH]; simpl.
  - apply lifts_ret.
  - apply lifts_bind; [apply Hbody|]. intros _. apply IH.
Qed.

Create HintDb lifts.
#[local] Hint Resolve lifts_execute lifts_ret lifts_bind lifts_for_each : lifts.

Lemma lifts_add_chr_map p df :
  lifts p (Body.add_chr_map (execute p) df) (Body.add_chr_map exec df).
Proof. unfold Body.add_chr_map. auto with lifts. Qed.

Lemma lifts_add_background p dfs :
  lifts p (Body.add_background (execute p) dfs) (Body.add_background exec dfs).
Proof. unfold Body.add_background. auto 6 with lifts. Qed.

Lemma lifts_add_regions p dfs :
  lifts p (Body.add_regions (execute p) dfs) (Body.add_regions exec dfs).
Proof. unfold Body.add_regions. auto 6 with lifts. Qed.

Lemma lifts_create_region_background_view p :
  lifts p (Body.create_region_background_view (execute p))
          (Body.create_region_background_view exec).
Proof. unfold Body.create_region_background_view. auto 8 with lifts. Qed.

Lemma lifts_provision p res :
  lifts p (Body.provision (execute p) res) (Body.provision exec res).
Proof.
  unfold Body.provision.
  apply lifts_bind; [apply lifts_add_chr_map|intros _].
  apply lifts_bind; [apply lifts_add_background|intros _].
  apply lifts_bind; [apply lifts_add_regions|intros _].
  apply lifts_create_region_background_view.
Qed.

Lemma opening_execute p stmt : opening p (execute p stmt).
Proof.
  intros w db Hopen. unfold execute. rewrite Hopen.
  rewrite (open_database_at_db _ _ db)
    by (eapply at_db_write, open_database_nonroot, Hopen).
  by destruct (stmt db); rewrite write_database_twice.
Qed.

Lemma opening_bind {A B} p (m : py A) (k : A → py B) :
  opening p m → opening p (bind m k).
Proof. intros Hm w db Hopen. unfold bind. by rewrite (Hm w db Hopen). Qed.

Lemma opening_provision p res : opening p (Body.provision (execute p) res).
Proof.
  unfold Body.provision, Body.add_chr_map.
  do 2 apply opening_bind. apply opening_execute.
Qed.

(** A method on a world whose engine can open its file, in terms of the
    body on the database. *)
Lemma run_opened {A} p (m : py A) s w db :
  lifts p m s → opening p m → open_database w p = inr db →
  m w = ((s db).1, write_database p (s db).2 w).
Proof.
  intros Hl Ho Hopen. rewrite (Ho w db Hopen).
  rewrite (Hl _ db) by (eapply at_db_write, open_database_nonroot, Hopen).
  by rewrite write_database_twice.
Qed.

Lemma execute_unopened p stmt w e :
  open_database w p = inl e → execute p stmt w = (inl e, w).
Proof. intros H. unfold execute. by rewrite H. Qed.

(** ** INSERT *)

Lemma insert_chr_map_inr t r t' :
  insert_chr_map t r = inr t' → t' = t ++ [r] ∧ is_Some (ChrMap.seqlength r).
Proof.
  unfold insert_chr_map. destruct (ChrMap.seqlength r); [|done].
  case_match; [done|]. intros [= <-]. eauto.
Qed.

Lemma insert_chr_map_null t r :
  ChrMap.seqlength r = None →
  insert_chr_map t r = inl (IntegrityError (NotNull "seqlength")).
Proof. unfold insert_chr_map. by intros ->. Qed.

Lemma insert_chr_map_integrity t r e :
  insert_chr_map t r = inl e → ∃ c, e = IntegrityError c.
Proof.
  unfold insert_chr_map.
  destruct (ChrMap.seqlength r); [|intros [= <-]; by eauto].
  case_match; [|done]. intros [= <-]. by eauto.
Qed.

Lemma insert_many_chr_map_inr df : ∀ t t',
  insert_many insert_chr_map t df = inr t' →
  t' = t ++ df ∧ Forall (λ r, is_Some (ChrMap.seqlength r)) df.
Proof.
  induction df as [|r df IH]; intros t t'; simpl.
  - intros [= <-]. by rewrite app_nil_r.
  - destruct (insert_chr_map t r) as [e|t1] eqn:Hins; [done|].
    apply insert_chr_map_inr in Hins as [-> Hlen].
    intros [-> Hall]%IH. rewrite <-app_assoc. by split; [|constructor].
Qed.

Lemma foldr_max_ge (i : Z) (ids : list Z) (j : Z) :
  j ∈ i :: ids → j ≤ foldr Z.max i ids.
Proof.
  induction ids as [|k ids IH]; simpl.
  - intros ->%list_elem_of_singleton. lia.
  - rewrite !elem_of_cons. intros [->|[->|Hin]].
    + assert (i ≤ foldr Z.max i ids) by (apply IH; left). lia.
    + lia.
    + assert (j ≤ foldr Z.max i ids) by (apply IH; by right). lia.
Qed.


Lemma foldr_max_elem (i : Z) (ids : list Z) : foldr Z.max i ids ∈ i :: ids.
Proof.
  induction ids as [|k ids IH]; simpl; [left|].
  destruct (Z.max_spec k (foldr Z.max i ids)) as [[_ ->]|[_ ->]].
  - apply elem_of_cons in IH as [->|?]; [left|by do 2 right].
  - right; left.
Qed.

(** A new rowid: 1 in an empty table; otherwise one more than the largest
    in use, or, when that is the largest there is, a free positive one. *)
Lemma new_rowid_Some draw ids v :
  new_rowid draw ids = Some v →
  (ids = [] ∧ v = 1)
  ∨ (∃ m, m ∈ ids ∧ (∀ j, j ∈ ids → j ≤ m)
          ∧ ((m < max_rowid ∧ v = m + 1)
             ∨ (max_rowid ≤ m ∧ 1 ≤ v ≤ max_rowid ∧ v ∉ ids))).
Proof.
  destruct ids as [|i ids]; simpl; [intros [= <-]; by left|].
  intros H. right. exists (foldr Z.max i ids).
  split; [apply foldr_max_elem|]. split; [apply foldr_max_ge|].
  case_bool_decide.
  - right. destruct (draw _) as [u|]; [|done].
    case_bool_decide as Hu; [|done]. injection H as <-. by destruct Hu.
  - left. injection H as <-. split; [lia|done].
Qed.

Lemma new_rowid_fresh draw ids v : new_rowid draw ids = Some v → v ∉ ids.
Proof.
  intros [[-> _]|(m & Hm & Hmax & [[? ->]|(_ & _ & ?)])]%new_rowid_Some.
  - by intros ?%elem_of_nil.
  - intros Hin%Hmax. lia.
  - done.
Qed.


(** The rowid after 1, 2, ..., n is n + 1. *)
Lemma new_rowid_seqZ draw (n : nat) v :
  new_rowid draw (seqZ 1 (Z.of_nat n)) = Some v → v = 1 + Z.of_nat n.
Proof.
  intros [[Hnil ->]|(m & Hm & Hmax & Hv)]%new_rowid_Some.
  - destruct n as [|n]; [done|].
    rewrite Nat2Z.inj_succ, seqZ_cons in Hnil by lia. done.
  - apply elem_of_seqZ in Hm.
    assert (n ≠ 0%nat) by (intros ->; simpl in Hm; lia).
    assert (Z.of_nat n ≤ m) by (apply Hmax, elem_of_seqZ; lia).
    destruct Hv as [[_ ->]|(? & ? & Hfree)]; [lia|].
    destruct Hfree. apply elem_of_seqZ. lia.
Qed.

Lemma assign_rowid_fresh table draw ids i v :
  assign_rowid table draw ids i = inr v → v ∉ ids.
Proof.
  unfold assign_rowid. destruct i as [u|].
  - case_bool_decide; [done|]. by intros [= <-].
  - destruct (new_rowid draw ids) as [u|] eqn:Hnew; [|done]. intros [= <-].
    by eapply new_rowid_fresh.
Qed.

Lemma assign_rowid_explicit table draw ids i v :
  assign_rowid table draw ids (Some i) = inr v → v = i.
Proof. unfold assign_rowid. case_bool_decide; [done|]. by intros [= <-]. Qed.

Section rowid_table.
Context {F T U : Type} (table : string) (draw : list Z → option Z)
        (stored_id : T → Z) (frame_id : F → option Z) (store : Z → F → T).
Context (forget_t : T → U) (forget_f : F → U).
Hypothesis stored_id_store : ∀ v r, stored_id (store v r) = v.
Hypothesis forget_store : ∀ v r, forget_t (store v r) = forget_f r.

#[local] Abbreviation ins :=
  (insert_with_rowid table draw stored_id frame_id store).

Lemma insert_by_rowid_Permutation r t :
  insert_by_rowid stored_id r t ≡ₚ r :: t.
Proof.
  induction t as [|a t IH]; simpl; [done|].
  case_bool_decide; [done|]. by rewrite IH, Permutation_swap.
Qed.

(** A row whose rowid is above all others goes to the end. *)
Lemma insert_by_rowid_last r t :
  (∀ j, j ∈ stored_id <$> t → j < stored_id r) →
  insert_by_rowid stored_id r t = t ++ [r].
Proof.
  induction t as [|a t IH]; simpl; intros Hlt; [done|].
  assert (stored_id a < stored_id r) by (apply Hlt; left).
  rewrite bool_decide_false by lia. f_equal. apply IH.
  intros j Hj. apply Hlt. by right.
Qed.

(** The table stays in rowid order. *)
Lemma insert_by_rowid_sorted r t :
  stored_id r ∉ stored_id <$> t →
  StronglySorted Z.lt (stored_id <$> t) →
  StronglySorted Z.lt (stored_id <$> insert_by_rowid stored_id r t).
Proof.
  induction t as [|a t IH]; intros Hfree Hs.
  - repeat constructor.
  - rewrite fmap_cons in Hfree, Hs. apply not_elem_of_cons in Hfree as [Hne ?].
    apply StronglySorted_inv in Hs as [Hs Ha].
    cbn [insert_by_rowid]. case_bool_decide as Hlt.
    + rewrite !fmap_cons. constructor; [by constructor|].
      constructor; [done|]. eapply Forall_impl; [exact Ha|].
      intros j ?. simpl in *. lia.
    + rewrite fmap_cons. constructor; [by apply IH|].
      rewrite insert_by_rowid_Permutation, fmap_cons.
      constructor; [lia|done].
Qed.

Lemma insert_with_rowid_inr t r t' :
  ins t r = inr t' →
  ∃ v, t' = insert_by_rowid stored_id (store v r) t
       ∧ (v ∉ stored_id <$> t)
       ∧ (∀ i, frame_id r = Some i → v = i)
       ∧ (frame_id r = None →
          new_rowid draw (stored_id <$> t) = Some v).
Proof.
  unfold insert_with_rowid.
  destruct (assign_rowid _ _ _ _) as [e|v] eqn:Hv; [done|]. intros [= <-].
  exists v. split; [done|]. split; [by eapply assign_rowid_fresh|]. split.
  - intros i Hi. rewrite Hi in Hv. by eapply assign_rowid_explicit.
  - intros Hi. rewrite Hi in Hv. simpl in Hv.
    by destruct (new_rowid _ _); simplify_eq.
Qed.

(** A frame that goes in leaves the rows before it in the table and adds
    its own rows, with their columns unchanged and with the ids they
    brought; the primary key stays free of duplicates, and the table in
    rowid order. *)
Lemma insert_many_with_rowid_inr rows : ∀ t t',
  insert_many ins t rows = inr t' →
  forget_t <$> t' ≡ₚ (forget_t <$> t) ++ (forget_f <$> rows)
  ∧ (NoDup (stored_id <$> t) → NoDup (stored_id <$> t'))
  ∧ (StronglySorted Z.lt (stored_id <$> t) →
     StronglySorted Z.lt (stored_id <$> t'))
  ∧ (∀ j, j ∈ stored_id <$> t ∨ j ∈ omap frame_id rows →
          j ∈ stored_id <$> t').
Proof.
  induction rows as [|r rows IH]; intros t t'; simpl.
  - intros [= <-]. rewrite app_nil_r. repeat split; try done.
    intros j [?|?%elem_of_nil]; done.
  - destruct (ins t r) as [e|t1] eqn:Hins; [done|].
    apply insert_with_rowid_inr in Hins as (v & -> & Hv & Hexpl & _).
    pose proof (insert_by_rowid_Permutation (store v r) t) as Hperm.
    intros (Hrows & Hnd & Hsort & Hids)%IH. repeat split.
    + rewrite Hrows, Hperm, fmap_cons, forget_store.
      by rewrite <-Permutation_middle.
    + intros Ht. apply Hnd. rewrite Hperm, fmap_cons, stored_id_store.
      by constructor.
    + intros Ht. apply Hsort, insert_by_rowid_sorted; [|done].
      by rewrite stored_id_store.
    + intros j Hj. apply Hids. rewrite Hperm, fmap_cons, stored_id_store.
      destruct Hj as [Hj|Hj]; [left; by right|].
      destruct (frame_id r) as [i|] eqn:Hi; [|by right].
      apply elem_of_cons in Hj as [->|Hj]; [|by right].
      left. rewrite (Hexpl _ eq_refl). left.
Qed.


(** Rows without an [id], inserted into a table numbered 1, 2, ..., go to
    its end in the order of insertion and get the next numbers. *)
Lemma insert_many_numbers rows : ∀ t t',
  Forall (λ r, frame_id r = None) rows →
  stored_id <$> t = seqZ 1 (Z.of_nat (length t)) →
  insert_many ins t rows = inr t' →
  stored_id <$> t' = seqZ 1 (Z.of_nat (length t'))
  ∧ forget_t <$> t' = (forget_t <$> t) ++ (forget_f <$> rows).
Proof.
  induction rows as [|r rows IH]; intros t t' Hnone Ht; simpl.
  - intros [= <-]. by rewrite app_nil_r.
  - apply Forall_cons in Hnone as [Hr Hnone].
    destruct (ins t r) as [e|t1] eqn:Hins; [done|].
    apply insert_with_rowid_inr in Hins as (v & -> & _ & _ & Hv).
    specialize (Hv Hr). rewrite Ht in Hv. apply new_rowid_seqZ in Hv as ->.
    rewrite insert_by_rowid_last.
    2: { intros j. rewrite Ht, stored_id_store. intros ?%elem_of_seqZ. lia. }
    intros Hrun. apply IH in Hrun as [Hids Hrows]; [|done|].
    + split; [done|]. rewrite Hrows, fmap_app. simpl.
      by rewrite forget_store, <-app_assoc.
    + rewrite fmap_app, length_app. simpl.
      rewrite stored_id_store, Ht, Nat.add_1_r. by rewrite seqZ_S.
Qed.



Lemma insert_with_rowid_sql_error t r e :
  ins t r = inl e →
  e = IntegrityError (Unique table) ∨ e = OperationalError DatabaseFull.
Proof.
  unfold insert_with_rowid, assign_rowid. destruct (frame_id r) as [u|].
  - case_bool_decide; [|done]. intros [= <-]. by left.
  - destruct (new_rowid _ _); [done|]. intros [= <-]. by right.
Qed.

End rowid_table.

(** ** The loader on the database *)

Ltac run_script :=
  unfold bind, exec, ret in *; simpl in *;
  repeat (case_match; simplify_eq/=).

Lemma fits_int64_spec (v : option Z) : fits v = true ↔ int64 v.
Proof.
  destruct v as [z|]; simpl; [|done].
  unfold in_int64, int64_min, int64_max.
  rewrite andb_true_iff, !Z.leb_le. lia.
Qed.

Lemma forallb_Forall {A} (f : A → bool) (l : list A) :
  forallb f l = true ↔ Forall (λ a, f a = true) l.
Proof.
  induction l as [|a l IH]; simpl; [by split|].
  rewrite andb_true_iff, Forall_cons, IH. done.
Qed.

Lemma chr_map_fits_spec df :
  forallb ChrMap.fits_int64 df = true ↔ chr_map_fits df.
Proof.
  rewrite forallb_Forall. unfold chr_map_fits. apply Forall_proper; [|done].
  intros r. apply fits_int64_spec.
Qed.

Lemma background_fits_spec df :
  forallb Background.fits_int64 df = true ↔ background_fits df.
Proof.
  rewrite forallb_Forall. unfold background_fits.
  apply Forall_proper; [|done]. intros r. unfold Background.fits_int64.
  rewrite !andb_true_iff, !fits_int64_spec. tauto.
Qed.

Lemma regions_fits_spec df :
  forallb Regions.fits_int64 (Regions.frame_rows df) = true ↔ regions_fits df.
Proof.
  rewrite forallb_Forall. unfold regions_fits, Regions.frame_rows.
  rewrite Forall_fmap. apply Forall_proper; [|done]. intros r.
  unfold Regions.fits_int64, compose. simpl.
  rewrite !andb_true_iff, !fits_int64_spec. tauto.
Qed.

Lemma regions_frame_rows_values df :
  (λ r, (regions_columns r, Regions.common_name r)) <$> Regions.frame_rows df
  = regions_frame_values df.
Proof.
  unfold Regions.frame_rows, regions_frame_values, stored_common_name.
  rewrite <-list_fmap_compose. apply list_fmap_ext. intros i r _. simpl.
  unfold regions_columns. simpl. by destruct (Regions.has_common_name df).
Qed.

Lemma regions_frame_rows_ids df :
  Forall (λ r, Regions.id r = None) (Regions.rows df) →
  Forall (λ r, Regions.id r = None) (Regions.frame_rows df).
Proof. intros H. unfold Regions.frame_rows. by apply Forall_fmap. Qed.

(** A [to_sql] that returns has put the frame in, and the frame held
    64-bit integers only. *)
Lemma to_sql_chr_map_inr df db db' :
  to_sql_chr_map df db = inr db' →
  catalog db' = catalog db ∧ chr_map db' = chr_map db ++ df
  ∧ background db' = background db ∧ regions db' = regions db
  ∧ random_rowid db' = random_rowid db
  ∧ chr_map_fits df.
Proof.
  unfold to_sql_chr_map.
  destruct (insert_many _ _ _) as [e|t] eqn:Hins; [done|].
  destruct (forallb _ _) eqn:Hfits; [|done]. intros [= <-].
  apply insert_many_chr_map_inr in Hins as [-> _].
  by apply chr_map_fits_spec in Hfits.
Qed.

Lemma to_sql_background_inr df db db' :
  to_sql_background df db = inr db' →
  ∃ t, insert_many (insert_background (random_rowid db)) (background db) df
       = inr t
       ∧ background_fits df
       ∧ db' = Database (catalog db) (chr_map db) t (regions db)
                        (random_rowid db).
Proof.
  unfold to_sql_background.
  destruct (insert_many _ _ _) as [e|t] eqn:Hins; [done|].
  destruct (forallb _ _) eqn:Hfits; [|done]. intros [= <-].
  exists t. by apply background_fits_spec in Hfits.
Qed.

Lemma to_sql_regions_inr df db db' :
  to_sql_regions df db = inr db' →
  ∃ t, insert_many (insert_regions (random_rowid db)) (regions db)
                   (Regions.frame_rows df)
       = inr t
       ∧ regions_fits df
       ∧ db' = Database (catalog db) (chr_map db) (background db) t
                        (random_rowid db).
Proof.
  unfold to_sql_regions.
  destruct (insert_many _ _ _) as [e|t] eqn:Hins; [done|].
  destruct (forallb _ _) eqn:Hfits; [|done]. intros [= <-].
  exists t. by apply regions_fits_spec in Hfits.
Qed.

(** What a frame leaves in [background]: the rows that were there and its
    own, column by column; [id] stays a key and the table in rowid
    order. *)
Lemma to_sql_background_rows df db db' :
  to_sql_background df db = inr db' →
  background_columns <$> background db'
  ≡ₚ (background_columns <$> background db) ++ (background_columns <$> df)
  ∧ (NoDup (Background.id <$> background db) →
     NoDup (Background.id <$> background db'))
  ∧ (StronglySorted Z.lt (Background.id <$> background db) →
     StronglySorted Z.lt (Background.id <$> background db')).
Proof.
  intros (t & Hins & _ & ->)%to_sql_background_inr. simpl.
  apply (insert_many_with_rowid_inr _ _ _ _ _
           background_columns background_columns) in Hins
    as (? & ? & ? & _); done.
Qed.

Lemma to_sql_regions_rows df db db' :
  to_sql_regions df db = inr db' →
  regions_row_values <$> regions db'
  ≡ₚ (regions_row_values <$> regions db) ++ regions_frame_values df
  ∧ (NoDup (Regions.id <$> regions db) → NoDup (Regions.id <$> regions db'))
  ∧ (StronglySorted Z.lt (Regions.id <$> regions db) →
     StronglySorted Z.lt (Regions.id <$> regions db')).
Proof.
  intros (t & Hins & _ & ->)%to_sql_regions_inr. simpl.
  rewrite <-regions_frame_rows_values.
  apply (insert_many_with_rowid_inr _ _ _ _ _
           regions_row_values
           (λ r, (regions_columns r, Regions.common_name r))) in Hins
    as (? & ? & ? & _); done.
Qed.

(** In a table numbered 1, 2, ..., a frame without ids goes to the end, in
    its own order, and the numbering goes on. *)
Lemma to_sql_background_numbers df db db' :
  Forall (λ r, Background.id r = None) df →
  Background.id <$> background db
  = seqZ 1 (Z.of_nat (length (background db))) →
  to_sql_background df db = inr db' →
  Background.id <$> background db'
  = seqZ 1 (Z.of_nat (length (background db')))
  ∧ background_columns <$> background db'
    = (background_columns <$> background db) ++ (background_columns <$> df).
Proof.
  intros Hnone Hids (t & Hins & _ & ->)%to_sql_background_inr. simpl.
  by apply (insert_many_numbers _ _ _ _ _
              background_columns background_columns) in Hins.
Qed.

Lemma to_sql_regions_numbers df db db' :
  Forall (λ r, Regions.id r = None) (Regions.rows df) →
  Regions.id <$> regions db = seqZ 1 (Z.of_nat (length (regions db))) →
  to_sql_regions df db = inr db' →
  Regions.id <$> regions db' = seqZ 1 (Z.of_nat (length (regions db')))
  ∧ regions_row_values <$> regions db'
    = (regions_row_values <$> regions db) ++ regions_frame_values df.
Proof.
  intros Hnone%regions_frame_rows_ids Hids
    (t & Hins & _ & ->)%to_sql_regions_inr.
  simpl. rewrite <-regions_frame_rows_values.
  by apply (insert_many_numbers _ _ _ _ _
              regions_row_values
              (λ r, (regions_columns r, Regions.common_name r))) in Hins.
Qed.

Lemma to_sql_background_frame df db db' :
  to_sql_background df db = inr db' →
  catalog db' = catalog db ∧ chr_map db' = chr_map db
  ∧ regions db' = regions db ∧ random_rowid db' = random_rowid db.
Proof. by intros (t & _ & _ & ->)%to_sql_background_inr. Qed.

Lemma to_sql_regions_frame df db db' :
  to_sql_regions df db = inr db' →
  catalog db' = catalog db ∧ chr_map db' = chr_map db
  ∧ background db' = background db ∧ random_rowid db' = random_rowid db.
Proof. by intros (t & _ & _ & ->)%to_sql_regions_inr. Qed.

(** The loop of [add_background]: the frames go in one after the other. *)
Lemma for_each_to_sql_background dfs : ∀ db r db',
  for_each dfs (λ df, exec (to_sql_background df)) db = (r, db') →
  catalog db' = catalog db ∧ chr_map db' = chr_map db
  ∧ regions db' = regions db
  ∧ (NoDup (Background.id <$> background db) →
     NoDup (Background.id <$> background db'))
  ∧ (StronglySorted Z.lt (Background.id <$> background db) →
     StronglySorted Z.lt (Background.id <$> background db'))
  ∧ (r = inr () →
     background_columns <$> background db'
     ≡ₚ (background_columns <$> background db)
        ++ (background_columns <$> concat dfs)).
Proof.
  induction dfs as [|df dfs IH]; intros db r db'; simpl.
  - intros [= <- <-]. by rewrite app_nil_r.
  - unfold bind at 1, exec at 1.
    destruct (to_sql_background df db) as [e|db1] eqn:Hdf.
    + intros [= <- <-]. done.
    + pose proof (to_sql_background_frame _ _ _ Hdf) as (Hc & Hm & Hr & _).
      apply to_sql_background_rows in Hdf as (Hrows & Hnd & Hs).
      intros (Hc' & Hm' & Hr' & Hnd' & Hs' & Hrows')%IH.
      rewrite Hc', Hm', Hr'. repeat split; [done..|by auto|by auto|].
      intros ->. rewrite Hrows' by done. rewrite Hrows, fmap_app.
      by rewrite app_assoc.
Qed.

Lemma for_each_to_sql_regions dfs : ∀ db r db',
  for_each dfs (λ df, exec (to_sql_regions df)) db = (r, db') →
  catalog db' = catalog db ∧ chr_map db' = chr_map db
  ∧ background db' = background db
  ∧ (NoDup (Regions.id <$> regions db) → NoDup (Regions.id <$> regions db'))
  ∧ (StronglySorted Z.lt (Regions.id <$> regions db) →
     StronglySorted Z.lt (Regions.id <$> regions db'))
  ∧ (r = inr () →
     regions_row_values <$> regions db'
     ≡ₚ (regions_row_values <$> regions db)
        ++ (dfs ≫= regions_frame_values)).
Proof.
  induction dfs as [|df dfs IH]; intros db r db'; simpl.
  - intros [= <- <-]. by rewrite app_nil_r.
  - unfold bind at 1, exec at 1.
    destruct (to_sql_regions df db) as [e|db1] eqn:Hdf.
    + intros [= <- <-]. done.
    + pose proof (to_sql_regions_frame _ _ _ Hdf) as (Hc & Hm & Hr & _).
      apply to_sql_regions_rows in Hdf as (Hrows & Hnd & Hs).
      intros (Hc' & Hm' & Hr' & Hnd' & Hs' & Hrows')%IH.
      rewrite Hc', Hm', Hr'. repeat split; [done..|by auto|by auto|].
      intros ->. rewrite Hrows' by done. rewrite Hrows.
      by rewrite app_assoc.
Qed.

Lemma for_each_to_sql_background_numbers dfs : ∀ db db',
  Forall (Forall (λ r, Background.id r = None)) dfs →
  Background.id <$> background db
  = seqZ 1 (Z.of_nat (length (background db))) →
  for_each dfs (λ df, exec (to_sql_background df)) db = (inr (), db') →
  Background.id <$> background db'
  = seqZ 1 (Z.of_nat (length (background db')))
  ∧ background_columns <$> background db'
    = (background_columns <$> background db)
      ++ (background_columns <$> concat dfs).
Proof.
  induction dfs as [|df dfs IH]; intros db db' Hnone Hids; simpl.
  - intros [= <-]. by rewrite app_nil_r.
  - apply Forall_cons in Hnone as [Hdf Hnone].
    unfold bind at 1, exec at 1.
    destruct (to_sql_background df db) as [e|db1] eqn:Hdb1; [done|].
    apply to_sql_background_numbers in Hdb1 as [Hids1 Hrows1]; [|done..].
    intros [Hids' Hrows']%IH; [|done..]. split; [done|].
    by rewrite Hrows', Hrows1, fmap_app, app_assoc.
Qed.

Lemma for_each_to_sql_regions_numbers dfs : ∀ db db',
  Forall (λ df, Forall (λ r, Regions.id r = None) (Regions.rows df)) dfs →
  Regions.id <$> regions db = seqZ 1 (Z.of_nat (length (regions db))) →
  for_each dfs (λ df, exec (to_sql_regions df)) db = (inr (), db') →
  Regions.id <$> regions db' = seqZ 1 (Z.of_nat (length (regions db')))
  ∧ regions_row_values <$> regions db'
    = (regions_row_values <$> regions db) ++ (dfs ≫= regions_frame_values).
Proof.
  induction dfs as [|df dfs IH]; intros db db' Hnone Hids; simpl.
  - intros [= <-]. by rewrite app_nil_r.
  - apply Forall_cons in Hnone as [Hdf Hnone].
    unfold bind at 1, exec at 1.
    destruct (to_sql_regions df db) as [e|db1] eqn:Hdb1; [done|].
    apply to_sql_regions_numbers in Hdb1 as [Hids1 Hrows1]; [|done..].
    intros [Hids' Hrows']%IH; [|done..]. split; [done|].
    by rewrite Hrows', Hrows1, app_assoc.
Qed.

(** What each method leaves in the tables when it returns. *)
Lemma add_chr_map_inr df db db' :
  Body.add_chr_map exec df db = (inr (), db') →
  chr_map db' = df ∧ background db' = background db
  ∧ regions db' = regions db.
Proof.
  unfold Body.add_chr_map, create_table_chr_map, create_object. intros H.
  run_script.
  match goal with H : to_sql_chr_map _ _ = inr _ |- _ =>
    apply to_sql_chr_map_inr in H as (? & ? & ? & ? & _) end.
  done.
Qed.

Lemma add_background_inr dfs db db' :
  Body.add_background exec dfs db = (inr (), db') →
  chr_map db' = chr_map db ∧ regions db' = regions db
  ∧ background_columns <$> background db'
    ≡ₚ background_columns <$> concat dfs
  ∧ NoDup (Background.id <$> background db')
  ∧ StronglySorted Z.lt (Background.id <$> background db').
Proof.
  unfold Body.add_background, create_table_background, create_index,
    create_object.
  intros H. run_script.
  match goal with H : for_each _ _ _ = _ |- _ =>
    apply for_each_to_sql_background in H
      as (? & ? & ? & Hnd & Hs & Hrows) end.
  simpl in *. repeat split; [done..|by apply Hrows| |].
  - apply Hnd. constructor.
  - apply Hs. constructor.
Qed.

Lemma add_regions_inr dfs db db' :
  Body.add_regions exec dfs db = (inr (), db') →
  chr_map db' = chr_map db ∧ background db' = background db
  ∧ regions_row_values <$> regions db' ≡ₚ dfs ≫= regions_frame_values
  ∧ NoDup (Regions.id <$> regions db')
  ∧ StronglySorted Z.lt (Regions.id <$> regions db').
Proof.
  unfold Body.add_regions, create_table_regions, create_index, create_object.
  intros H. run_script.
  match goal with H : for_each _ _ _ = _ |- _ =>
    apply for_each_to_sql_regions in H as (? & ? & ? & Hnd & Hs & Hrows) end.
  simpl in *. repeat split; [done..|by apply Hrows| |].
  - apply Hnd. constructor.
  - apply Hs. constructor.
Qed.

(** When no frame carries an [id], the table is numbered 1, 2, ... in the
    order of the frames and of the rows within them. *)
Lemma add_background_numbers dfs db db' :
  Forall (Forall (λ r, Background.id r = None)) dfs →
  Body.add_background exec dfs db = (inr (), db') →
  Background.id <$> background db'
  = seqZ 1 (Z.of_nat (length (background db')))
  ∧ background_columns <$> background db'
    = background_columns <$> concat dfs.
Proof.
  intros Hnone.
  unfold Body.add_background, create_table_background, create_index,
    create_object.
  intros H. run_script.
  match goal with H : for_each _ _ _ = _ |- _ =>
    apply for_each_to_sql_background_numbers in H end; done.
Qed.

Lemma add_regions_numbers dfs db db' :
  Forall (λ df, Forall (λ r, Regions.id r = None) (Regions.rows df)) dfs →
  Body.add_regions exec dfs db = (inr (), db') →
  Regions.id <$> regions db' = seqZ 1 (Z.of_nat (length (regions db')))
  ∧ regions_row_values <$> regions db' = dfs ≫= regions_frame_values.
Proof.
  intros Hnone.
  unfold Body.add_regions, create_table_regions, create_index, create_object.
  intros H. run_script.
  match goal with H : for_each _ _ _ = _ |- _ =>
    apply for_each_to_sql_regions_numbers in H end; done.
Qed.

Lemma create_region_background_view_tables db r db' :
  Body.create_region_background_view exec db = (r, db') →
  chr_map db' = chr_map db ∧ background db' = background db
  ∧ regions db' = regions db.
Proof.
  unfold Body.create_region_background_view, drop_view_if_exists, create_view,
    create_object.
  intros H. run_script; done.
Qed.

Lemma bind_inr {S A B} (m : M S A) (k : A → M S B) s b s' :
  bind m k s = (inr b, s') →
  ∃ a s1, m s = (inr a, s1) ∧ k a s1 = (inr b, s').
Proof.
  unfold bind. destruct (m s) as [[e|a] s1]; [done|]. intros H. by exists a, s1.
Qed.

(** The four steps of a provisioning run that returns. *)
Lemma provision_steps res db db' :
  Body.provision exec res db = (inr (), db') →
  ∃ db1 db2 db3,
    Body.add_chr_map exec (yeast_chr_map res) db = (inr (), db1)
    ∧ Body.add_background exec
        [yeast_background_adh1 res; yeast_background_sir4 res] db1
      = (inr (), db2)
    ∧ Body.add_regions exec
        [yeast_promoters_yiming res; yeast_promoters_not_orf res] db2
      = (inr (), db3)
    ∧ Body.create_region_background_view exec db3 = (inr (), db').
Proof.
  unfold Body.provision.
  intros ([] & db1 & H1 & ([] & db2 & H2 & ([] & db3 & H3 & H4)%bind_inr)
            %bind_inr)%bind_inr.
  by exists db1, db2, db3.
Qed.

Lemma provision_inr res db db' :
  Body.provision exec res db = (inr (), db') →
  chr_map db' = yeast_chr_map res
  ∧ background_columns <$> background db'
    ≡ₚ background_columns
         <$> (yeast_background_adh1 res ++ yeast_background_sir4 res)
  ∧ regions_row_values <$> regions db'
    ≡ₚ regions_frame_values (yeast_promoters_yiming res)
       ++ regions_frame_values (yeast_promoters_not_orf res)
  ∧ db_ok db'
  ∧ StronglySorted Z.lt (Background.id <$> background db')
  ∧ StronglySorted Z.lt (Regions.id <$> regions db').
Proof.
  intros (db1 & db2 & db3 & H1 & H2 & H3 & H4)%provision_steps.
  apply add_chr_map_inr in H1 as (Hm1 & Hb1 & Hr1).
  apply add_background_inr in H2 as (Hm2 & Hr2 & Hb2 & Hnb & Hsb).
  apply add_regions_inr in H3 as (Hm3 & Hb3 & Hr3 & Hnr & Hsr).
  apply create_region_background_view_tables in H4 as (Hm4 & Hb4 & Hr4).
  unfold db_ok. rewrite Hm4, Hb4, Hr4, Hm3, Hb3, Hr3, Hm2, Hb2.
  cbn [concat mbind list_bind]. rewrite !app_nil_r. done.
Qed.



(** ** The constructor *)


Lemma init_no_parent res q w :
  path_exists w (parent (resolve w q)) = false →
  __init__ res (PathObj q) w = (inl FileNotFoundError, w).
Proof. intros H. unfold __init__, bind; simpl. by rewrite H. Qed.

Lemma init_checked res q w :
  path_exists w (parent (resolve w q)) = true →
  __init__ res (PathObj q) w
  = bind (Body.provision (execute (resolve w q)) res)
         (λ _, ret {| resources := res; engine := resolve w q |}) w.
Proof.
  intros H. unfold __init__ at 1, bind at 1 2; simpl. rewrite H; simpl.
  unfold Body.provision, add_chr_map, add_background, add_regions,
    create_region_background_view, bind; simpl.
  destruct (Body.add_chr_map _ _ w) as [[?|[]] w1]; [done|].
  destruct (Body.add_background _ _ w1) as [[?|[]] w2]; [done|].
  destruct (Body.add_regions _ _ w2) as [[?|[]] w3]; [done|].
  by destruct (Body.create_region_background_view _ w3) as [[?|[]] w4].
Qed.

Lemma init_unopened res q w e :
  path_exists w (parent (resolve w q)) = true →
  open_database w (resolve w q) = inl e →
  __init__ res (PathObj q) w = (inl e, w).
Proof.
  intros Hex Hopen. rewrite init_checked by done.
  unfold Body.provision, Body.add_chr_map, bind.
  by rewrite (execute_unopened _ _ _ e).
Qed.

Lemma init_opened res q w db :
  path_exists w (parent (resolve w q)) = true →
  open_database w (resolve w q) = inr db →
  __init__ res (PathObj q) w
  = (match (Body.provision exec res db).1 with
     | inl e => inl e
     | inr _ => inr {| resources := res; engine := resolve w q |}
     end,
     write_database (resolve w q) (Body.provision exec res db).2 w).
Proof.
  intros Hex Hopen. rewrite init_checked by done. unfold bind at 1.
  rewrite (run_opened _ _ _ _ db (lifts_provision _ res)
             (opening_provision _ res) Hopen).
  by destruct (Body.provision exec res db) as [[e|[]] db1].
Qed.

(** When the constructor returns, the database of the new instance is the
    one its body leaves. *)
Lemma init_inr res o w self w' :
  __init__ res o w = (inr self, w') →
  ∃ db db',
    Body.provision exec res db = (inr (), db')
    ∧ at_db w' (engine self) db'
    ∧ open_database w (engine self) = inr db.
Proof.
  intros H. destruct o as [q| |]; [|done..].
  destruct (path_exists w (parent (resolve w q))) eqn:Hex;
    [|by rewrite init_no_parent in H].
  destruct (open_database w (resolve w q)) as [e|db] eqn:Hopen;
    [by rewrite (init_unopened _ _ _ e) in H|].
  rewrite (init_opened _ _ _ db) in H by done.
  destruct (Body.provision exec res db) as [[e|[]] db1] eqn:Hp; [done|].
  simpl in H. injection H as <- <-. exists db, db1. simpl.
  split; [done|]. split; [|done].
  eapply at_db_write, open_database_nonroot, Hopen.
Qed.

(** ** Claims about the loader *)


(** ** Errors of the engine *)

Lemma raises_sql_exec stmt :
  (∀ db e, stmt db = inl e → sql_error e) → raises_sql (exec stmt).
Proof.
  intros Hstmt db e db'. unfold exec.
  destruct (stmt db) as [e0|db1] eqn:H; [|done]. intros [= <- <-]. eauto.
Qed.

Lemma raises_sql_ret {A} (a : A) : raises_sql (ret a).
Proof. by intros db e db'. Qed.

Lemma raises_sql_bind {A B} (m : M database A) (k : A → M database B) :
  raises_sql m → (∀ a, raises_sql (k a)) → raises_sql (bind m k).
Proof.
  intros Hm Hk db e db'. unfold bind.
  destruct (m db) as [[e0|a] db1] eqn:H.
  - intros [= <- <-]. eauto.
  - apply Hk.
Qed.

Lemma raises_sql_for_each {A} (xs : list A) body :
  (∀ x, raises_sql (body x)) → raises_sql (for_each xs body).
Proof.
  intros Hbody. induction xs as [|x xs IH]; simpl; [done|].
  apply raises_sql_bind; auto.
Qed.

Lemma insert_many_inl {A R} (ins : list A → R → exn + list A)
    (P : exn → Prop) rows :
  (∀ t r e, ins t r = inl e → P e) →
  ∀ t e, insert_many ins t rows = inl e → P e.
Proof.
  intros Hins. induction rows as [|r rows IH]; intros t e; simpl; [done|].
  destruct (ins t r) as [e0|t1] eqn:H; [|by apply IH].
  intros [= <-]. eauto.
Qed.

Lemma create_object_sql name k db e :
  create_object name k db = inl e → sql_error e.
Proof. unfold create_object. case_match; [|done]. by intros [= <-]. Qed.

Lemma to_sql_chr_map_sql df db e : to_sql_chr_map df db = inl e → sql_error e.
Proof.
  unfold to_sql_chr_map.
  destruct (insert_many _ _ _) as [e0|t] eqn:H;
    [|case_match; [done|by intros [= <-]]].
  intros [= <-]. revert H. apply insert_many_inl.
  by intros t r e (c & ->)%insert_chr_map_integrity.
Qed.

Lemma to_sql_background_sql df db e :
  to_sql_background df db = inl e → sql_error e.
Proof.
  unfold to_sql_background.
  destruct (insert_many _ _ _) as [e0|t] eqn:H;
    [|case_match; [done|by intros [= <-]]].
  intros [= <-]. revert H. apply insert_many_inl.
  by intros t r e [-> | ->]%insert_with_rowid_sql_error.
Qed.

Lemma to_sql_regions_sql df db e : to_sql_regions df db = inl e → sql_error e.
Proof.
  unfold to_sql_regions.
  destruct (insert_many _ _ _) as [e0|t] eqn:H;
    [|case_match; [done|by intros [= <-]]].
  intros [= <-]. revert H. apply insert_many_inl.
  by intros t r e [-> | ->]%insert_with_rowid_sql_error.
Qed.

Lemma create_table_chr_map_sql db e :
  create_table_chr_map db = inl e → sql_error e.
Proof.
  unfold create_table_chr_map. destruct (create_object _ _ _) eqn:Hc; [|done].
  intros [= <-]. by apply create_object_sql in Hc.
Qed.

Lemma create_table_background_sql db e :
  create_table_background db = inl e → sql_error e.
Proof.
  unfold create_table_background.
  destruct (create_object _ _ _) eqn:Hc; [|done].
  intros [= <-]. by apply create_object_sql in Hc.
Qed.

Lemma create_table_regions_sql db e :
  create_table_regions db = inl e → sql_error e.
Proof.
  unfold create_table_regions. destruct (create_object _ _ _) eqn:Hc; [|done].
  intros [= <-]. by apply create_object_sql in Hc.
Qed.

Lemma create_index_sql name table db e :
  create_index name table db = inl e → sql_error e.
Proof.
  unfold create_index. repeat case_match; intros [= <-]; try done.
  by eapply create_object_sql.
Qed.

Lemma drop_view_if_exists_sql name db e :
  drop_view_if_exists name db = inl e → sql_error e.
Proof. unfold drop_view_if_exists. repeat case_match; by intros [= <-]. Qed.

Lemma create_view_sql name q db e :
  create_view name q db = inl e → sql_error e.
Proof.
  unfold create_view. destruct (create_object _ _ _) eqn:Hc; [|done].
  intros [= <-]. by apply create_object_sql in Hc.
Qed.

Lemma raises_sql_provision res : raises_sql (Body.provision exec res).
Proof.
  unfold Body.provision, Body.add_chr_map, Body.add_background,
    Body.add_regions, Body.create_region_background_view.
  repeat first
    [ apply raises_sql_bind; [|intros _]
    | apply raises_sql_for_each; intros ?
    | apply raises_sql_ret
    | apply raises_sql_exec; intros ? ? ? ];
    eauto using create_table_chr_map_sql, create_table_background_sql,
      create_table_regions_sql, create_index_sql, drop_view_if_exists_sql,
      create_view_sql, to_sql_chr_map_sql, to_sql_background_sql,
      to_sql_regions_sql.
Qed.

Lemma open_database_sql w p e : open_database w p = inl e → sql_error e.
Proof. unfold open_database. repeat case_match; by intros [= <-]. Qed.

(** ** Claims about the constructor *)


(** C10.  Whenever the constructor raises one of its two path errors, the
    world after the call is the world before it: the check comes before
    anything touches the file behind the engine. *)
Theorem init_path_error_changes_nothing res o w e w' :
  __init__ res o w = (inl e, w') →
  e = AttributeError ∨ e = FileNotFoundError →
  w' = w.
Proof.
  intros H He. destruct o as [q| |]; [|by injection H..].
  destruct (path_exists w (parent (resolve w q))) eqn:Hex;
    [|rewrite init_no_parent in H by done; by injection H].
  destruct (open_database w (resolve w q)) as [e0|db] eqn:Hopen.
  - rewrite (init_unopened _ _ _ e0) in H by done. by injection H.
  - rewrite (init_opened _ _ _ db) in H by done.
    destruct (Body.provision exec res db) as [[e1|[]] db1] eqn:Hp; [|done].
    apply raises_sql_provision in Hp. simpl in H. injection H as <- _.
    by destruct He as [-> | ->].
Qed.

(** ** A table that is already there *)

Lemma create_object_existing name k k' db :
  catalog db !! name = Some k' →
  create_object name k db = inl (OperationalError (AlreadyExists name)).
Proof. unfold create_object. by intros ->. Qed.

Lemma add_chr_map_existing df db k :
  catalog db !! "chr_map" = Some k →
  Body.add_chr_map exec df db
  = (inl (OperationalError (AlreadyExists "chr_map")), db).
Proof.
  intros H. unfold Body.add_chr_map, bind, exec, create_table_chr_map.
  by rewrite (create_object_existing _ _ k).
Qed.

Lemma add_background_existing dfs db k :
  catalog db !! "background" = Some k →
  Body.add_background exec dfs db
  = (inl (OperationalError (AlreadyExists "background")), db).
Proof.
  intros H. unfold Body.add_background, bind, exec, create_table_background.
  by rewrite (create_object_existing _ _ k).
Qed.

Lemma add_regions_existing dfs db k :
  catalog db !! "regions" = Some k →
  Body.add_regions exec dfs db
  = (inl (OperationalError (AlreadyExists "regions")), db).
Proof.
  intros H. unfold Body.add_regions, bind, exec, create_table_regions.
  by rewrite (create_object_existing _ _ k).
Qed.

(** A name in the catalog stays there while CREATE statements run. *)
Lemma create_object_keeps name k db c n k' :
  create_object name k db = inr c →
  catalog db !! n = Some k' → c !! n = Some k'.
Proof.
  unfold create_object. destruct (catalog db !! name) eqn:Hname; [done|].
  intros [= <-] Hn. rewrite lookup_insert_ne; [done|]. congruence.
Qed.

(** Whatever [add_chr_map] returns, it keeps the names of the catalog and
    the rows of the other two tables. *)
Lemma add_chr_map_frame df db r db' :
  Body.add_chr_map exec df db = (r, db') →
  (∀ n k, catalog db !! n = Some k → catalog db' !! n = Some k)
  ∧ background db' = background db ∧ regions db' = regions db.
Proof.
  unfold Body.add_chr_map, bind, exec, create_table_chr_map.
  destruct (create_object _ _ _) as [e|c] eqn:Hc; [by intros [= <- <-]|].
  pose proof (λ n k, create_object_keeps _ _ _ _ n k Hc) as Hkeep.
  destruct (to_sql_chr_map _ _) as [e|db1] eqn:Hdf; intros [= <- <-]; simpl.
  - done.
  - by apply to_sql_chr_map_inr in Hdf as (-> & _ & -> & -> & _).
Qed.

Lemma add_background_frame dfs db r db' :
  Body.add_background exec dfs db = (r, db') →
  (∀ n k, catalog db !! n = Some k → catalog db' !! n = Some k)
  ∧ chr_map db' = chr_map db ∧ regions db' = regions db.
Proof.
  unfold Body.add_background, bind, exec, create_table_background,
    create_index.
  destruct (create_object "background" _ _) as [e|c] eqn:Hc;
    [by intros [= <- <-]|].
  pose proof (λ n k, create_object_keeps _ _ _ _ n k Hc) as Hkeep.
  simpl. destruct (c !! "background") as [[]|]; try by intros [= <- <-].
  destruct (create_object "background_index" _ _) as [e|c'] eqn:Hc';
    [by intros [= <- <-]|].
  pose proof (λ n k, create_object_keeps _ _ _ _ n k Hc') as Hkeep'.
  intros (-> & -> & -> & _)%for_each_to_sql_background; simpl in *.
  split; [|done]. intros n k Hn. by apply Hkeep', Hkeep.
Qed.

(** On a database that has one of the three tables the body of the
    constructor raises, and leaves the rows of that table alone. *)
Lemma provision_existing res db :
  (catalog db !! "chr_map" = Some Table
   ∨ catalog db !! "background" = Some Table
   ∨ catalog db !! "regions" = Some Table) →
  ∃ e db',
    Body.provision exec res db = (inl e, db')
    ∧ (catalog db !! "chr_map" = Some Table → chr_map db' = chr_map db)
    ∧ (catalog db !! "background" = Some Table →
       background db' = background db)
    ∧ (catalog db !! "regions" = Some Table → regions db' = regions db).
Proof.
  intros Hex. unfold Body.provision, bind.
  destruct (catalog db !! "chr_map") as [k|] eqn:Hm.
  { rewrite (add_chr_map_existing _ _ k) by done. by eauto 10. }
  destruct (Body.add_chr_map exec _ db) as [[e|[]] db1] eqn:H1;
    apply add_chr_map_frame in H1 as (Hn1 & Hb1 & Hr1);
    [exists e, db1; by rewrite Hb1, Hr1|].
  destruct (catalog db !! "background") as [k|] eqn:Hb.
  { rewrite (add_background_existing _ _ k) by auto.
    exists (OperationalError (AlreadyExists "background")), db1.
    by rewrite Hb1, Hr1. }
  destruct (Body.add_background exec _ db1) as [[e|[]] db2] eqn:H2;
    apply add_background_frame in H2 as (Hn2 & Hm2 & Hr2);
    [exists e, db2; rewrite Hr2, Hr1; by repeat split|].
  destruct Hex as [?|[?|Hr]]; [done..|].
  rewrite (add_regions_existing _ _ Table) by auto.
  exists (OperationalError (AlreadyExists "regions")), db2.
  rewrite Hr2, Hr1. by repeat split.
Qed.

(** C7.  On a database file that already has a table named [chr_map],
    [background] or [regions], the method that creates that table raises
    "table ... already exists" before it inserts anything and leaves the
    file as it was; and the constructor raises instead of returning an
    instance, with the rows of the existing table untouched. *)
Theorem existing_table_raises (w : world) (p : path) (db : database) :
  at_db w p db →
  (∀ self, engine self = p →
     (catalog db !! "chr_map" = Some Table →
      ∀ df, add_chr_map self df w
            = (inl (OperationalError (AlreadyExists "chr_map")), w))
     ∧ (catalog db !! "background" = Some Table →
        ∀ dfs, add_background self dfs w
               = (inl (OperationalError (AlreadyExists "background")), w))
     ∧ (catalog db !! "regions" = Some Table →
        ∀ dfs, add_regions self dfs w
               = (inl (OperationalError (AlreadyExists "regions")), w)))
  ∧ (∀ res q, resolve w q = p →
       catalog db !! "chr_map" = Some Table
       ∨ catalog db !! "background" = Some Table
       ∨ catalog db !! "regions" = Some Table →
       ∃ e w' db',
         __init__ res (PathObj q) w = (inl e, w')
         ∧ at_db w' p db'
         ∧ (catalog db !! "chr_map" = Some Table → chr_map db' = chr_map db)
         ∧ (catalog db !! "background" = Some Table →
            background db' = background db)
         ∧ (catalog db !! "regions" = Some Table →
            regions db' = regions db)).
Proof.
  intros Hat. split.
  - intros self <-. repeat split; intros Hk ?.
    + unfold add_chr_map. rewrite (lifts_add_chr_map _ _ w db Hat).
      rewrite (add_chr_map_existing _ _ Table Hk); simpl.
      by rewrite write_database_id.
    + unfold add_background. rewrite (lifts_add_background _ _ w db Hat).
      rewrite (add_background_existing _ _ Table Hk); simpl.
      by rewrite write_database_id.
    + unfold add_regions. rewrite (lifts_add_regions _ _ w db Hat).
      rewrite (add_regions_existing _ _ Table Hk); simpl.
      by rewrite write_database_id.
  - intros res q <- Hex.
    destruct (path_exists w (parent (resolve w q))) eqn:Hparent.
    + rewrite (init_opened _ _ _ db) by auto using open_database_at_db.
      destruct (provision_existing res db Hex) as (e & db' & -> & ?).
      exists e, (write_database (resolve w q) db' w), db'. simpl.
      split; [done|]. split; [|done]. apply at_db_write, Hat.
    + rewrite init_no_parent by done.
      exists FileNotFoundError, w, db. done.
Qed.

(** X5.  The database a provisioning run leaves has [id] as a key of both
    tables: no two rows of [background], and no two rows of [regions],
    share an [id].  This is what the claims on the views assume of stored
    rows. *)
Lemma init_db_ok res o w self w' :
  __init__ res o w = (inr self, w') →
  ∃ db', at_db w' (engine self) db' ∧ db_ok db'.
Proof.
  intros (db & db' & Hp & Hat & _)%init_inr. exists db'.
  by apply provision_inr in Hp as (_ & _ & _ & ? & _).
Qed.

(** C9, as the schema has it.  A frame goes into [chr_map] only if every
    row has a seqlength; a frame with a row whose seqlength is missing is
    rejected with an IntegrityError, and such a row on its own with
    "NOT NULL constraint failed".  The sign of seqlength is not looked
    at. *)
Theorem chr_map_seqlength_not_null (df : list ChrMap.row) (db : database) :
  (∀ db', to_sql_chr_map df db = inr db' →
          Forall (λ r, is_Some (ChrMap.seqlength r)) df)
  ∧ (∀ r, r ∈ df → ChrMap.seqlength r = None →
          ∃ c, to_sql_chr_map df db = inl (IntegrityError c))
  ∧ (∀ t r, ChrMap.seqlength r = None →
            insert_chr_map t r = inl (IntegrityError (NotNull "seqlength"))).
Proof.
  assert (∀ db', to_sql_chr_map df db = inr db' →
                 Forall (λ r, is_Some (ChrMap.seqlength r)) df) as Hok.
  { intros db'. unfold to_sql_chr_map.
    destruct (insert_many _ _ _) as [e|t] eqn:Hins; [done|]. intros _.
    by apply insert_many_chr_map_inr in Hins as [_ ?]. }
  split; [done|]. split; [|apply insert_chr_map_null].
  intros r Hr Hnull. unfold to_sql_chr_map.
  destruct (insert_many _ _ _) as [e0|t] eqn:Hins.
  - apply (insert_many_inl _ (λ e, ∃ c, e = IntegrityError c)) in Hins
      as [c ->]; [by exists c|].
    intros ? ? ?. apply insert_chr_map_integrity.
  - apply insert_many_chr_map_inr in Hins as [_ Hall].
    rewrite Forall_forall in Hall. apply Hall in Hr.
    rewrite Hnull in Hr. by destruct Hr.
Qed.

(** ** Appending twice *)

Lemma opening_add_background p dfs :
  opening p (Body.add_background (execute p) dfs).
Proof. unfold Body.add_background. apply opening_bind, opening_execute. Qed.

Lemma opening_add_regions p dfs :
  opening p (Body.add_regions (execute p) dfs).
Proof. unfold Body.add_regions. apply opening_bind, opening_execute. Qed.

Lemma add_background_catalog dfs db db' :
  Body.add_background exec dfs db = (inr (), db') →
  catalog db'
  = <["background_index" := Index]> (<["background" := Table]> (catalog db)).
Proof.
  unfold Body.add_background, create_table_background, create_index,
    create_object.
  intros H. run_script.
  match goal with H : for_each _ _ _ = _ |- _ =>
    apply for_each_to_sql_background in H as (-> & _) end.
  done.
Qed.

Lemma add_regions_catalog dfs db db' :
  Body.add_regions exec dfs db = (inr (), db') →
  catalog db'
  = <["regions_index" := Index]> (<["regions" := Table]> (catalog db)).
Proof.
  unfold Body.add_regions, create_table_regions, create_index, create_object.
  intros H. run_script.
  match goal with H : for_each _ _ _ = _ |- _ =>
    apply for_each_to_sql_regions in H as (-> & _) end.
  done.
Qed.








(** ** The scenario of the spec, run *)

Example scenario_provisions :
  __init__ scenario (PathObj test_db) tmp_world
  = (inr test_api, provisioned_world).
Proof. vm_compute. reflexivity. Qed.

Example scenario_region_background_agg :
  region_background_agg scenario_db
  = [Agg.Row (Some "chrI") (Some 50) (Some 200) 1 (Some "reg1") (Some "bg1")
             1 (Some "YAL001") (Some "none")].
Proof. vm_compute. reflexivity. Qed.

Example scenario_total_bg_hops :
  total_bg_hops scenario_db = [Total.Row (Some "bg1") 1].
Proof. vm_compute. reflexivity. Qed.

Example scenario_no_overlap : region_background_agg no_overlap_db = [].
Proof. vm_compute. reflexivity. Qed.

(** ** The claims at the scenario *)

Lemma region_background_agg_interval_join_witness :
  stored_promoter ∈ regions scenario_db
  ∧ Background.with_id 1 (hop_at 100) ∈ background scenario_db
  ∧ spec_hit stored_promoter (Background.with_id 1 (hop_at 100))
  ∧ (stored_promoter, Background.with_id 1 (hop_at 100))
      ∈ spec_members scenario_db
          (stored_promoter, Background.with_id 1 (hop_at 100))
  ∧ ∃ a,
      filter (λ a, keyed_by a (stored_promoter,
                               Background.with_id 1 (hop_at 100)))
             (region_background_agg scenario_db)
      = [a]
      ∧ Agg.background_hops a
        = Z.of_nat
            (length (spec_members scenario_db
                       (stored_promoter,
                        Background.with_id 1 (hop_at 100)))).
Proof.
  assert (stored_promoter ∈ regions scenario_db) as Hr by (simpl; left).
  assert (Background.with_id 1 (hop_at 100) ∈ background scenario_db) as Hx
    by (simpl; left).
  assert (spec_hit stored_promoter (Background.with_id 1 (hop_at 100))) as Hs
    by (unfold spec_hit; simpl; split; [reflexivity|lia]).
  split; [exact Hr|]. split; [exact Hx|]. split; [exact Hs|].
  exact (proj1 (region_background_agg_interval_join scenario_db)
               stored_promoter (Background.with_id 1 (hop_at 100)) Hr Hx Hs).
Defined.

Lemma region_background_agg_unmatched_witness :
  db_ok no_overlap_db
  ∧ stored_promoter ∈ regions no_overlap_db
  ∧ (∀ a, a ∈ region_background_agg no_overlap_db →
          ¬ (Agg.region_id a = Regions.id stored_promoter
             ∧ Agg.background_sample a = Some "bg1")).
Proof.
  assert (db_ok no_overlap_db) as Hok
    by (split; simpl; apply NoDup_singleton).
  assert (stored_promoter ∈ regions no_overlap_db) as Hr by (simpl; left).
  split; [exact Hok|]. split; [exact Hr|].
  apply (region_background_agg_unmatched no_overlap_db stored_promoter
           (Some "bg1") Hok Hr).
  intros x Hx _. simpl in Hx. apply list_elem_of_singleton in Hx. subst x.
  unfold spec_hit; simpl. lia.
Defined.





Lemma existing_table_raises_witness :
  at_db provisioned_world test_db_path scenario_db
  ∧ add_chr_map test_api [chrI] provisioned_world
    = (inl (OperationalError (AlreadyExists "chr_map")), provisioned_world).
Proof.
  assert (at_db provisioned_world test_db_path scenario_db) as Hat
    by (split; [discriminate|vm_compute; reflexivity]).
  split; [exact Hat|].
  apply (proj1 (existing_table_raises provisioned_world test_db_path
                  scenario_db Hat) test_api eq_refl).
  vm_compute. reflexivity.
Defined.



Lemma init_path_error_changes_nothing_witness :
  (__init__ scenario (PathObj missing_db) tmp_world).1 = inl FileNotFoundError
  ∧ (__init__ scenario (PathObj missing_db) tmp_world).2 = tmp_world.
Proof.
  assert ((__init__ scenario (PathObj missing_db) tmp_world).1
          = inl FileNotFoundError) as Hfst by (vm_compute; reflexivity).
  split; [exact Hfst|].
  apply (init_path_error_changes_nothing scenario (PathObj missing_db)
           tmp_world FileNotFoundError).
  - rewrite <-Hfst. apply surjective_pairing.
  - right. reflexivity.
Defined.

(** C9, counterexample.  A chromosome row with seqlength 0 goes into
    [chr_map]. *)
Lemma chr_map_accepts_zero_seqlength :
  (add_chr_map test_api [chrM] tmp_world).1 = inr ()
  ∧ chr_map <$> database_at (add_chr_map test_api [chrM] tmp_world).2
                            test_db_path
    = Some [chrM]
  ∧ ChrMap.seqlength chrM = Some 0
  ∧ ¬ (0 < 0).
Proof. repeat split; try (vm_compute; reflexivity). lia. Qed.

Lemma chr_map_seqlength_not_null_witness :
  ChrMap.seqlength chr_unknown = None
  ∧ insert_chr_map [chrI] chr_unknown
    = inl (IntegrityError (NotNull "seqlength")).
Proof.
  assert (ChrMap.seqlength chr_unknown = None) as Hnull by reflexivity.
  split; [exact Hnull|].
  exact (proj2 (proj2 (chr_map_seqlength_not_null [chr_unknown]
                         empty_database)) [chrI] chr_unknown Hnull).
Defined.

(** * Further properties of the code *)

(** ** What the constructor leaves behind *)

Lemma add_regions_frame dfs db r db' :
  Body.add_regions exec dfs db = (r, db') →
  (∀ n k, catalog db !! n = Some k → catalog db' !! n = Some k)
  ∧ chr_map db' = chr_map db ∧ background db' = background db.
Proof.
  unfold Body.add_regions, bind, exec, create_table_regions, create_index.
  destruct (create_object "regions" _ _) as [e|c] eqn:Hc;
    [by intros [= <- <-]|].
  pose proof (λ n k, create_object_keeps _ _ _ _ n k Hc) as Hkeep.
  simpl. destruct (c !! "regions") as [[]|]; try by intros [= <- <-].
  destruct (create_object "regions_index" _ _) as [e|c'] eqn:Hc';
    [by intros [= <- <-]|].
  pose proof (λ n k, create_object_keeps _ _ _ _ n k Hc') as Hkeep'.
  intros (-> & -> & -> & _)%for_each_to_sql_regions; simpl in *.
  split; [|done]. intros n k Hn. by apply Hkeep', Hkeep.
Qed.

Lemma drop_view_if_exists_frame name db db' n :
  drop_view_if_exists name db = inr db' → n ≠ name →
  catalog db' !! n = catalog db !! n.
Proof.
  unfold drop_view_if_exists. intros H Hn.
  destruct (catalog db !! name) as [[]|]; simplify_eq/=; try done.
  by rewrite lookup_delete_ne.
Qed.

Lemma create_view_frame name q db db' n :
  create_view name q db = inr db' → n ≠ name →
  catalog db' !! n = catalog db !! n.
Proof.
  unfold create_view, create_object. intros H Hn.
  destruct (catalog db !! name); simplify_eq/=.
  by rewrite lookup_insert_ne.
Qed.

(** The view builder only touches the two view names. *)
Lemma create_region_background_view_frame db r db' n :
  Body.create_region_background_view exec db = (r, db') →
  n ≠ "region_background_agg" → n ≠ "total_bg_hops" →
  catalog db' !! n = catalog db !! n.
Proof.
  intros H Hn1 Hn2. revert H.
  unfold Body.create_region_background_view, bind, exec.
  destruct (drop_view_if_exists "region_background_agg" db)
    as [e|db1] eqn:H1; [by intros [= <- <-]|].
  apply (drop_view_if_exists_frame _ _ _ n) in H1; [|done].
  destruct (create_view "region_background_agg" _ db1) as [e|db2] eqn:H2;
    [by intros [= <- <-]|].
  apply (create_view_frame _ _ _ _ n) in H2; [|done].
  destruct (drop_view_if_exists "total_bg_hops" db2) as [e|db3] eqn:H3;
    [intros [= <- <-]; congruence|].
  apply (drop_view_if_exists_frame _ _ _ n) in H3; [|done].
  destruct (create_view "total_bg_hops" _ db3) as [e|db4] eqn:H4;
    intros [= <- <-]; [congruence|].
  apply (create_view_frame _ _ _ _ n) in H4; [|done]. congruence.
Qed.

(** After [add_chr_map], whatever it returned, the name [chr_map] is in the
    catalog. *)
Lemma add_chr_map_leaves_name df db r db' :
  Body.add_chr_map exec df db = (r, db') →
  is_Some (catalog db' !! "chr_map").
Proof.
  unfold Body.add_chr_map, bind, exec, create_table_chr_map, create_object.
  destruct (catalog db !! "chr_map") as [k|] eqn:Hk.
  - intros [= <- <-]. by rewrite Hk.
  - destruct (to_sql_chr_map _ _) as [e|db1] eqn:Hdf; intros [= <- <-]; simpl.
    + rewrite lookup_insert_eq. by eexists.
    + apply to_sql_chr_map_inr in Hdf as (-> & _). simpl.
      rewrite lookup_insert_eq. by eexists.
Qed.

Lemma provision_leaves_chr_map res db r db' :
  Body.provision exec res db = (r, db') →
  is_Some (catalog db' !! "chr_map").
Proof.
  unfold Body.provision, bind.
  destruct (Body.add_chr_map exec _ db) as [[e|[]] db1] eqn:H1;
    apply add_chr_map_leaves_name in H1 as [k Hk];
    [intros [= <- <-]; by eexists|].
  destruct (Body.add_background exec _ db1) as [[e|[]] db2] eqn:H2;
    apply add_background_frame in H2 as (Hn2 & _);
    [intros [= <- <-]; rewrite (Hn2 _ _ Hk); by eexists|].
  destruct (Body.add_regions exec _ db2) as [[e|[]] db3] eqn:H3;
    apply add_regions_frame in H3 as (Hn3 & _);
    [intros [= <- <-]; rewrite (Hn3 _ _ (Hn2 _ _ Hk)); by eexists|].
  intros H4.
  rewrite (create_region_background_view_frame _ _ _ "chr_map" H4) by done.
  rewrite (Hn3 _ _ (Hn2 _ _ Hk)). by eexists.
Qed.

Lemma init_keeps_cwd res o w : cwd (__init__ res o w).2 = cwd w.
Proof.
  destruct o as [q| |]; [|done..].
  destruct (path_exists w (parent (resolve w q))) eqn:Hex;
    [|by rewrite init_no_parent].
  destruct (open_database w (resolve w q)) as [e|db] eqn:Hopen.
  - by rewrite (init_unopened _ _ _ e).
  - by rewrite (init_opened _ _ _ db).
Qed.

(** X1.  When the constructor returns, the engine of the new instance is
    the resolved path, and that path exists afterwards: the assertion of
    [test_database_constructor]. *)
Theorem init_creates_file res o w self w' :
  __init__ res o w = (inr self, w') →
  ∃ q, o = PathObj q
       ∧ engine self = resolve w q
       ∧ path_exists w' (resolve w' q) = true.
Proof.
  intros H. destruct o as [q| |]; [|done..]. exists q. split; [done|].
  pose proof (init_keeps_cwd res (PathObj q) w) as Hcwd.
  rewrite H in Hcwd; simpl in Hcwd.
  destruct (path_exists w (parent (resolve w q))) eqn:Hex;
    [|by rewrite init_no_parent in H].
  destruct (open_database w (resolve w q)) as [e|db] eqn:Hopen;
    [by rewrite (init_unopened _ _ _ e) in H|].
  rewrite (init_opened _ _ _ db) in H by done.
  destruct (Body.provision exec res db) as [[e|[]] db1]; [done|].
  simpl in H. injection H as <- <-. split; [done|].
  unfold resolve. simpl. fold (resolve w q).
  unfold path_exists. apply bool_decide_eq_true.
  exists (DbFile db1). apply lookup_node_at_db.
  eapply at_db_write, open_database_nonroot, Hopen.
Qed.

(** X3.  The constructor never works twice on one path: after any call,
    whether it returned or raised, a second call on the resulting world
    raises.  Once a call gets past the path checks the file holds a
    [chr_map] table, and CREATE TABLE has no IF NOT EXISTS. *)
Theorem init_not_rerunnable (res res' : Resources) (o : pyobj) (w : world) :
  ∃ e, (__init__ res' o (__init__ res o w).2).1 = inl e.
Proof.
  destruct o as [q| |]; [|by exists AttributeError..].
  pose proof (init_keeps_cwd res (PathObj q) w) as Hcwd.
  assert (∀ w1, cwd w1 = cwd w → resolve w1 q = resolve w q) as Hres
    by (intros w1 Hw1; unfold resolve; by rewrite Hw1).
  destruct (path_exists w (parent (resolve w q))) eqn:Hex.
  2: { rewrite (init_no_parent res q w) by done. simpl.
       rewrite (init_no_parent res' q w) by done. by eexists. }
  destruct (open_database w (resolve w q)) as [e|db] eqn:Hopen.
  { rewrite (init_unopened res q w e) by done. simpl.
    rewrite (init_unopened res' q w e) by done. by eexists. }
  rewrite (init_opened res q w db) in * by done. simpl in *.
  destruct (Body.provision exec res db) as [r db1] eqn:Hp. simpl in *.
  set (w1 := write_database (resolve w q) db1 w) in *.
  assert (at_db w1 (resolve w1 q) db1) as Hat.
  { rewrite Hres by done. eapply at_db_write, open_database_nonroot, Hopen. }
  destruct (path_exists w1 (parent (resolve w1 q))) eqn:Hex1;
    [|rewrite init_no_parent by done; by eexists].
  rewrite (init_opened _ _ _ db1) by auto using open_database_at_db.
  apply provision_leaves_chr_map in Hp as [k Hk]. simpl.
  unfold Body.provision, bind.
  rewrite (add_chr_map_existing _ _ k Hk). by eexists.
Qed.

(** ** The catalog after each method *)

Lemma add_chr_map_catalog df db db' :
  Body.add_chr_map exec df db = (inr (), db') →
  catalog db' = <["chr_map" := Table]> (catalog db).
Proof.
  unfold Body.add_chr_map, create_table_chr_map, create_object. intros H.
  run_script.
  match goal with H : to_sql_chr_map _ _ = inr _ |- _ =>
    apply to_sql_chr_map_inr in H as (-> & _) end.
  done.
Qed.



Lemma provision_catalog res db db' :
  Body.provision exec res db = (inr (), db') →
  catalog db' !! "chr_map" = Some Table
  ∧ catalog db' !! "background" = Some Table
  ∧ catalog db' !! "background_index" = Some Index
  ∧ catalog db' !! "regions" = Some Table
  ∧ catalog db' !! "regions_index" = Some Index
  ∧ catalog db' !! "region_background_agg"
    = Some (View SelectRegionBackgroundAgg)
  ∧ catalog db' !! "total_bg_hops" = Some (View SelectTotalBgHops).
Proof.
  intros (db1 & db2 & db3 & H1 & H2 & H3 & H4)%provision_steps.
  apply add_chr_map_catalog in H1. apply add_background_catalog in H2.
  apply add_regions_catalog in H3.
  assert (∀ n, n ≠ "region_background_agg" → n ≠ "total_bg_hops" →
               catalog db' !! n = catalog db3 !! n) as Hother
    by (intros n ? ?; by eapply create_region_background_view_frame).
  assert (catalog db' !! "region_background_agg"
          = Some (View SelectRegionBackgroundAgg)
          ∧ catalog db' !! "total_bg_hops" = Some (View SelectTotalBgHops))
    as [Hv1 Hv2].
  { revert H4.
    unfold Body.create_region_background_view, bind, exec, create_view,
      create_object.
    destruct (drop_view_if_exists "region_background_agg" db3) as [|d1];
      [done|].
    destruct (catalog d1 !! "region_background_agg") eqn:Hd1; [done|].
    simpl.
    destruct (drop_view_if_exists "total_bg_hops" _) as [|d2] eqn:Hd2;
      [done|].
    apply (drop_view_if_exists_frame _ _ _ "region_background_agg") in Hd2;
      [|done].
    simpl in Hd2. rewrite lookup_insert_eq in Hd2.
    destruct (catalog d2 !! "total_bg_hops") eqn:Hd3; [done|].
    intros [= <-]. simpl. rewrite lookup_insert_eq.
    by rewrite lookup_insert_ne. }
  rewrite !Hother, H3, H2, H1 by done.
  repeat split; try done;
    repeat first [ apply lookup_insert_eq | rewrite lookup_insert_ne by done ].
Qed.

(** X2.  When the constructor returns, the database of the new instance has
    the three tables, the two indexes and the two views, each under its
    name and of its kind. *)
Theorem init_schema_complete res o w self w' :
  __init__ res o w = (inr self, w') →
  ∃ db',
    lookup_node w' (engine self) = Some (DbFile db')
    ∧ catalog db' !! "chr_map" = Some Table
    ∧ catalog db' !! "background" = Some Table
    ∧ catalog db' !! "background_index" = Some Index
    ∧ catalog db' !! "regions" = Some Table
    ∧ catalog db' !! "regions_index" = Some Index
    ∧ catalog db' !! "region_background_agg"
      = Some (View SelectRegionBackgroundAgg)
    ∧ catalog db' !! "total_bg_hops" = Some (View SelectTotalBgHops).
Proof.
  intros (db & db' & Hp & Hat & _)%init_inr. exists db'.
  split; [by apply lookup_node_at_db|]. by apply provision_catalog in Hp.
Qed.


Lemma init_creates_file_witness :
  __init__ scenario (PathObj test_db) tmp_world
  = (inr test_api, provisioned_world)
  ∧ ∃ q, PathObj test_db = PathObj q
         ∧ engine test_api = resolve tmp_world q
         ∧ path_exists provisioned_world (resolve provisioned_world q) = true.
Proof.
  assert (__init__ scenario (PathObj test_db) tmp_world
          = (inr test_api, provisioned_world)) as Hrun
    by (vm_compute; reflexivity).
  split; [exact Hrun|].
  exact (init_creates_file scenario (PathObj test_db) tmp_world test_api
           provisioned_world Hrun).
Defined.

Lemma init_schema_complete_witness :
  __init__ scenario (PathObj test_db) tmp_world
  = (inr test_api, provisioned_world)
  ∧ ∃ db',
      lookup_node provisioned_world (engine test_api) = Some (DbFile db')
      ∧ catalog db' !! "chr_map" = Some Table
      ∧ catalog db' !! "background" = Some Table
      ∧ catalog db' !! "background_index" = Some Index
      ∧ catalog db' !! "regions" = Some Table
      ∧ catalog db' !! "regions_index" = Some Index
      ∧ catalog db' !! "region_background_agg"
        = Some (View SelectRegionBackgroundAgg)
      ∧ catalog db' !! "total_bg_hops" = Some (View SelectTotalBgHops).
Proof.
  assert (__init__ scenario (PathObj test_db) tmp_world
          = (inr test_api, provisioned_world)) as Hrun
    by (vm_compute; reflexivity).
  split; [exact Hrun|].
  exact (init_schema_complete scenario (PathObj test_db) tmp_world test_api
           provisioned_world Hrun).
Defined.

Lemma init_db_ok_witness :
  __init__ scenario (PathObj test_db) tmp_world
  = (inr test_api, provisioned_world)
  ∧ ∃ db', at_db provisioned_world (engine test_api) db' ∧ db_ok db'.
Proof.
  assert (__init__ scenario (PathObj test_db) tmp_world
          = (inr test_api, provisioned_world)) as Hrun
    by (vm_compute; reflexivity).
  split; [exact Hrun|].
  exact (init_db_ok scenario (PathObj test_db) tmp_world test_api
           provisioned_world Hrun).
Defined.


(** ** More on the views *)

Lemma sum_Z_Permutation (l1 l2 : list Z) : l1 ≡ₚ l2 → sum_Z l1 = sum_Z l2.
Proof.
  unfold sum_Z. induction 1; simpl; lia.
Qed.

Lemma sum_Z_cons (x : Z) (l : list Z) : sum_Z (x :: l) = x + sum_Z l.
Proof. done. Qed.

Lemma sum_Z_zero {K} (f : K → Z) (ks : list K) :
  (∀ k, k ∈ ks → f k = 0) → sum_Z (f <$> ks) = 0.
Proof.
  induction ks as [|k ks IH]; intros Hf; [done|].
  rewrite fmap_cons, sum_Z_cons, Hf by left.
  rewrite IH; [done|]. intros k' ?. apply Hf. by right.
Qed.

Lemma sum_Z_indicator `{EqDecision K} (ks : list K) (k0 : K) :
  NoDup ks → k0 ∈ ks →
  sum_Z ((λ k, if decide (k0 = k) then 1 else 0) <$> ks) = 1.
Proof.
  induction 1 as [|k ks Hk Hnd IH]; [by intros ?%elem_of_nil|].
  rewrite fmap_cons, sum_Z_cons. intros [<-|Hin]%elem_of_cons.
  - rewrite decide_True by done. rewrite sum_Z_zero; [done|].
    intros k Hin. rewrite decide_False; [done|]. by intros ->.
  - rewrite decide_False by (intros ->; done). by rewrite IH.
Qed.

(** The groups of GROUP BY share out the rows: their sizes add up to the
    number of rows. *)
Lemma group_by_sizes {A} `{EqDecision K} (key : A → K) (l : list A)
    (ks : list K) :
  NoDup ks → (∀ a, a ∈ l → key a ∈ ks) →
  sum_Z ((λ k, Z.of_nat (length (filter (λ a, key a = k) l))) <$> ks)
  = Z.of_nat (length l).
Proof.
  intros Hnd. induction l as [|a l IH]; intros Hks.
  - by apply sum_Z_zero.
  - assert (sum_Z ((λ k, Z.of_nat (length (filter (λ a0, key a0 = k) (a :: l))))
                     <$> ks)
            = sum_Z ((λ k, if decide (key a = k) then 1 else 0) <$> ks)
              + sum_Z ((λ k, Z.of_nat (length (filter (λ a0, key a0 = k) l)))
                         <$> ks)) as ->.
    { clear. induction ks as [|k ks IHk]; [done|].
      rewrite !fmap_cons, !sum_Z_cons, IHk, filter_cons.
      destruct (decide (key a = k)); simpl; lia. }
    rewrite sum_Z_indicator by (done || apply Hks; left).
    rewrite IH by (intros a0 ?; apply Hks; by right).
    simpl. lia.
Qed.

Lemma sum_Z_group_by {A K} `{EqDecision K} (R : relation K)
    `{!RelDecision R} (key : A → K) (l : list A) :
  sum_Z ((λ g, Z.of_nat (length g.2)) <$> Sql.group_by R key l)
  = Z.of_nat (length l).
Proof.
  unfold Sql.group_by. rewrite <-list_fmap_compose.
  apply (group_by_sizes key l).
  - rewrite order_by_Permutation. apply NoDup_remove_dups.
  - intros a Ha. rewrite elem_of_order_by, elem_of_remove_dups.
    by apply list_elem_of_fmap_2.
Qed.

Lemma background_hops_select_agg g :
  Agg.background_hops (select_agg g) = Z.of_nat (length g.2).
Proof. by destruct g as [[[[[[rs xs] c] s] e] i] members]. Qed.

(** X6.  The counts of the two views add up: the [hops] of [total_bg_hops]
    total the number of rows of [background], and the [background_hops] of
    [region_background_agg] total the number of pairs of a stored region
    and a stored background event with the same chromosome and the event's
    start within the region's closed interval. *)
Theorem view_counts_add_up (db : database) :
  sum_Z (Total.hops <$> total_bg_hops db) = Z.of_nat (length (background db))
  ∧ sum_Z (Agg.background_hops <$> region_background_agg db)
    = Z.of_nat (length (filter (λ q, spec_hit q.1 q.2) (spec_pairs db))).
Proof.
  split.
  - unfold total_bg_hops. rewrite <-list_fmap_compose.
    apply (sum_Z_group_by _ Background.sample).
  - unfold region_background_agg.
    rewrite (sum_Z_Permutation _
               (Agg.background_hops
                  <$> (select_agg
                         <$> Sql.group_by group_le group_key
                               (filter (λ p, hit p) (joined db)))))
      by (by rewrite order_by_Permutation).
    rewrite <-list_fmap_compose.
    transitivity (Z.of_nat (length (filter (λ p, hit p) (joined db)))).
    + rewrite <-(sum_Z_group_by group_le group_key
                   (filter (λ p, hit p) (joined db))).
      f_equal. apply list_fmap_ext. intros i g _. simpl.
      apply background_hops_select_agg.
    + unfold joined, spec_pairs. by rewrite left_join_hits, length_fmap.
Qed.

(** X7.  [region_background_agg] has at most one row per composite key and
    no row with a count below 1; likewise [total_bg_hops] has at most one
    row per label and no count below 1. *)
Theorem view_rows_are_groups (db : database) :
  NoDup (agg_key <$> region_background_agg db)
  ∧ (∀ a, a ∈ region_background_agg db → 1 ≤ Agg.background_hops a)
  ∧ NoDup (Total.sample <$> total_bg_hops db)
  ∧ (∀ t, t ∈ total_bg_hops db → 1 ≤ Total.hops t).
Proof.
  assert (∀ {A K} `{EqDecision K} (R : relation K) `{!RelDecision R}
            (key : A → K) l g,
            g ∈ Sql.group_by R key l → (1 ≤ length g.2)%nat) as Hpos.
  { intros A K ? R ? key l g [Hk Hg]%elem_of_group_by.
    apply list_elem_of_fmap in Hk as (a & Hka & Ha).
    assert (a ∈ g.2) as Hin by (rewrite Hg; by apply list_elem_of_filter).
    destruct g.2; [by apply elem_of_nil in Hin|simpl; lia]. }
  assert (∀ {A K} `{EqDecision K} (R : relation K) `{!RelDecision R}
            (key : A → K) l,
            NoDup ((Sql.group_by R key l).*1)) as Hnd.
  { intros A K ? R ? key l. rewrite group_by_keys.
    apply NoDup_remove_dups. }
  repeat split.
  - unfold region_background_agg.
    rewrite order_by_Permutation, <-list_fmap_compose.
    rewrite (list_fmap_ext _ fst (Sql.group_by group_le group_key
                                    (filter (λ p, hit p) (joined db))))
      by (intros i g _; apply agg_key_select_agg).
    apply Hnd.
  - intros a Ha. unfold region_background_agg in Ha.
    apply elem_of_order_by in Ha.
    apply list_elem_of_fmap in Ha as (g & -> & Hg).
    rewrite background_hops_select_agg. apply Hpos in Hg. lia.
  - unfold total_bg_hops. rewrite <-list_fmap_compose.
    rewrite (list_fmap_ext _ fst
               (Sql.group_by (Sql.nulls_first String.le) Background.sample
                             (background db))) by done.
    apply Hnd.
  - intros t Ht. unfold total_bg_hops in Ht.
    apply list_elem_of_fmap in Ht as (g & -> & Hg). simpl.
    apply Hpos in Hg. lia.
Qed.

(** X8.  Every row of [region_background_agg] shows one stored region: its
    id, chromosome, interval, sample label, and as associated feature the
    [name] and [common_name] of that same region; and some stored event
    with the row's background_sample falls in that region. *)
Theorem view_row_shows_a_region (db : database) (a : Agg.row) :
  a ∈ region_background_agg db →
  ∃ r x,
    r ∈ regions db ∧ x ∈ background db ∧ spec_hit r x
    ∧ Agg.region_id a = Regions.id r
    ∧ Agg.chr a = Regions.chr r
    ∧ Agg.start a = Regions.start r
    ∧ Agg.end_ a = Regions.end_ r
    ∧ Agg.regions_sample a = Regions.sample r
    ∧ Agg.associated_feature_systematic_id a = Regions.name r
    ∧ Agg.associated_feature_common_name a = Regions.common_name r
    ∧ Agg.background_sample a = Background.sample x.
Proof.
  intros Ha. unfold region_background_agg in Ha.
  apply elem_of_order_by in Ha.
  apply list_elem_of_fmap in Ha as (g & -> & Hg).
  apply elem_of_group_by in Hg as [Hk Hg].
  apply list_elem_of_fmap in Hk as (p0 & Hp0 & Hin0).
  destruct g as [k members]. simpl in *. subst members.
  destruct (filter (λ p, group_key p = k)
              (filter (λ p, hit p) (joined db))) as [|p ps] eqn:Hf.
  { assert (p0 ∈ filter (λ p, group_key p = k)
                    (filter (λ p, hit p) (joined db))) as Hin
      by (by apply list_elem_of_filter).
    rewrite Hf in Hin. by apply elem_of_nil in Hin. }
  assert (p ∈ filter (λ p, group_key p = k)
                (filter (λ p, hit p) (joined db))) as Hp
    by (rewrite Hf; left).
  apply list_elem_of_filter in Hp as [Hkp Hp].
  apply elem_of_hits in Hp as (r & x & -> & Hr & Hx & Hs).
  exists r, x. subst k. unfold group_key in Hkp. simpl in Hkp.
  injection Hkp as Hk1 Hk2 Hk3 Hk4 Hk5 Hk6.
  unfold select_agg, group_key. simpl.
  repeat split; first [done | congruence].
Qed.

Lemma view_row_shows_a_region_witness :
  Agg.Row (Some "chrI") (Some 50) (Some 200) 1 (Some "reg1") (Some "bg1") 1
          (Some "YAL001") (Some "none")
    ∈ region_background_agg scenario_db
  ∧ ∃ r x,
      r ∈ regions scenario_db ∧ x ∈ background scenario_db ∧ spec_hit r x
      ∧ 1 = Regions.id r
      ∧ Some "chrI" = Regions.chr r
      ∧ Some 50 = Regions.start r
      ∧ Some 200 = Regions.end_ r
      ∧ Some "reg1" = Regions.sample r
      ∧ Some "YAL001" = Regions.name r
      ∧ Some "none" = Regions.common_name r
      ∧ Some "bg1" = Background.sample x.
Proof.
  assert (Agg.Row (Some "chrI") (Some 50) (Some 200) 1 (Some "reg1")
                  (Some "bg1") 1 (Some "YAL001") (Some "none")
            ∈ region_background_agg scenario_db) as Hin
    by (vm_compute; left).
  split; [exact Hin|].
  exact (view_row_shows_a_region scenario_db _ Hin).
Defined.

(** ** More on the loader *)

Lemma opening_add_chr_map p df : opening p (Body.add_chr_map (execute p) df).
Proof. unfold Body.add_chr_map. apply opening_bind, opening_execute. Qed.

(** The loop of [add_background] stops at the first frame that fails: the
    table then holds the frames before it, whole, and nothing of the
    failing frame or of those after it. *)
Lemma for_each_to_sql_background_prefix dfs : ∀ db r db',
  for_each dfs (λ df, exec (to_sql_background df)) db = (r, db') →
  ∃ k,
    background_columns <$> background db'
    ≡ₚ (background_columns <$> background db)
       ++ (background_columns <$> concat (take k dfs))
    ∧ (Forall (Forall (λ r, Background.id r = None)) dfs →
       Background.id <$> background db
       = seqZ 1 (Z.of_nat (length (background db))) →
       background_columns <$> background db'
       = (background_columns <$> background db)
         ++ (background_columns <$> concat (take k dfs)))
    ∧ ((r = inr () ∧ k = length dfs)
       ∨ (∃ e, r = inl e ∧ (k < length dfs)%nat)).
Proof.
  induction dfs as [|df dfs IH]; intros db r db'; simpl.
  - intros [= <- <-]. exists 0%nat. rewrite app_nil_r. auto.
  - unfold bind at 1, exec at 1.
    destruct (to_sql_background df db) as [e|db1] eqn:Hdf.
    + intros [= <- <-]. exists 0%nat. simpl. rewrite app_nil_r.
      split; [done|]. split; [done|]. right. exists e. split; [done|lia].
    + pose proof (to_sql_background_rows _ _ _ Hdf) as (Hrows & _).
      intros (k & Hk & Hord & Hr)%IH. exists (S k). simpl.
      split; [|split].
      * by rewrite Hk, Hrows, fmap_app, app_assoc.
      * intros [Hn Hnone]%Forall_cons Hids.
        apply to_sql_background_numbers in Hdf as [Hids1 Hrows1];
          [|done..].
        by rewrite Hord, Hrows1, fmap_app, app_assoc.
      * destruct Hr as [[-> ->]|(e & -> & ?)]; [by left|].
        right. exists e. split; [done|lia].
Qed.

(** X9.  [add_background] on a file without the table loads whole frames
    only, in list order: the table ends up with the rows of the first [k]
    frames, column by column, all of the frames when the method returns
    and fewer when it raises; a frame that fails leaves none of its rows
    behind, and the frames after it are not tried.  When no frame carries
    an [id] the rows read back in the order of the frames and of the rows
    within them. *)
Theorem add_background_loads_whole_frames (self : DatabaseAPINew)
    (w : world) (db : database)
    (dfs : list (list (Background.row (option Z)))) :
  open_database w (engine self) = inr db →
  catalog db !! "background" = None →
  catalog db !! "background_index" = None →
  ∃ r db' k,
    add_background self dfs w = (r, write_database (engine self) db' w)
    ∧ background_columns <$> background db'
      ≡ₚ background_columns <$> concat (take k dfs)
    ∧ (Forall (Forall (λ r, Background.id r = None)) dfs →
       background_columns <$> background db'
       = background_columns <$> concat (take k dfs))
    ∧ ((r = inr () ∧ k = length dfs)
       ∨ (∃ e, r = inl e ∧ (k < length dfs)%nat)).
Proof.
  intros Hopen Hb Hi. unfold add_background.
  rewrite (run_opened _ _ _ _ db (lifts_add_background _ _)
             (opening_add_background _ _) Hopen).
  destruct (Body.add_background exec dfs db) as [r db'] eqn:Hrun.
  exists r, db'. simpl.
  revert Hrun.
  unfold Body.add_background, bind, exec, create_table_background,
    create_index, create_object.
  rewrite Hb. simpl. rewrite lookup_insert_eq.
  rewrite lookup_insert_ne by done. rewrite Hi.
  intros (k & Hk & Hord & Hr)%for_each_to_sql_background_prefix.
  exists k. simpl in Hk, Hord. split; [done|]. split; [done|].
  split; [|done]. intros Hnone. by apply Hord.
Qed.

(** X10.  When [add_background] returns and no frame carried an [id], the
    stored rows are numbered 1, 2, ..., n and read back, column by column,
    in the order of the frames and of the rows within them. *)
Theorem add_background_numbers_rows (self : DatabaseAPINew) (w w' : world)
    (db : database) (dfs : list (list (Background.row (option Z)))) :
  open_database w (engine self) = inr db →
  Forall (Forall (λ r, Background.id r = None)) dfs →
  add_background self dfs w = (inr (), w') →
  ∃ db',
    at_db w' (engine self) db'
    ∧ Background.id <$> background db'
      = seqZ 1 (Z.of_nat (length (concat dfs)))
    ∧ background_columns <$> background db'
      = background_columns <$> concat dfs.
Proof.
  intros Hopen Hnone. unfold add_background.
  rewrite (run_opened _ _ _ _ db (lifts_add_background _ _)
             (opening_add_background _ _) Hopen).
  destruct (Body.add_background exec dfs db) as [r db'] eqn:Hrun.
  simpl. intros [= -> <-]. exists db'.
  split; [eapply at_db_write, open_database_nonroot, Hopen|].
  apply add_background_numbers in Hrun as [Hids Hrows]; [|done].
  split; [|done].
  assert (length (background db') = length (concat dfs)) as <-; [|done].
  apply (f_equal length) in Hrows. by rewrite !length_fmap in Hrows.
Qed.

Lemma add_background_loads_whole_frames_witness :
  open_database tmp_world (engine test_api) = inr empty_database
  ∧ ∃ r db' k,
      add_background test_api [[hop_at 100]; [hop_at 300]] tmp_world
      = (r, write_database (engine test_api) db' tmp_world)
      ∧ background_columns <$> background db'
        ≡ₚ background_columns
             <$> concat (take k [[hop_at 100]; [hop_at 300]])
      ∧ (Forall (Forall (λ r, Background.id r = None))
                [[hop_at 100]; [hop_at 300]] →
         background_columns <$> background db'
         = background_columns
             <$> concat (take k [[hop_at 100]; [hop_at 300]]))
      ∧ ((r = inr () ∧ k = length [[hop_at 100]; [hop_at 300]])
         ∨ (∃ e, r = inl e ∧ (k < length [[hop_at 100]; [hop_at 300]])%nat)).
Proof.
  assert (open_database tmp_world (engine test_api) = inr empty_database)
    as Hopen by (vm_compute; reflexivity).
  split; [exact Hopen|].
  apply (add_background_loads_whole_frames test_api tmp_world empty_database
           [[hop_at 100]; [hop_at 300]] Hopen); reflexivity.
Defined.

Lemma add_background_numbers_rows_witness :
  (add_background test_api [[hop_at 100]; [hop_at 300]] tmp_world).1 = inr ()
  ∧ ∃ db',
      at_db (add_background test_api [[hop_at 100]; [hop_at 300]] tmp_world).2
            (engine test_api) db'
      ∧ Background.id <$> background db'
        = seqZ 1 (Z.of_nat (length (concat [[hop_at 100]; [hop_at 300]])))
      ∧ background_columns <$> background db'
        = background_columns <$> concat [[hop_at 100]; [hop_at 300]].
Proof.
  assert ((add_background test_api [[hop_at 100]; [hop_at 300]] tmp_world).1
          = inr ()) as Hfst by (vm_compute; reflexivity).
  assert (open_database tmp_world (engine test_api) = inr empty_database)
    as Hopen by (vm_compute; reflexivity).
  split; [exact Hfst|].
  apply (add_background_numbers_rows test_api tmp_world _ empty_database
           [[hop_at 100]; [hop_at 300]] Hopen).
  - repeat constructor.
  - rewrite <-Hfst. apply surjective_pairing.
Defined.

(** ** What [chr_map] accepts *)

Lemma taken_false {A} `{EqDecision B} (col : A → option B) (v : option B)
    (t : list A) :
  taken col v t = false ↔ ∀ b, v = Some b → b ∉ omap col t.
Proof.
  unfold taken. destruct v as [b|]; [|by split].
  rewrite bool_decide_eq_false. split.
  - intros Hnot b' [= <-] (a & Ha & Hcol)%list_elem_of_omap.
    apply Hnot. rewrite <-Hcol. by apply list_elem_of_fmap_2.
  - intros Hnot (a & Hcol & Ha)%list_elem_of_fmap.
    apply (Hnot b eq_refl), list_elem_of_omap. by exists a.
Qed.

Lemma unique_col_snoc {A} `{EqDecision B} (col : A → option B) (t : list A)
    (r : A) :
  unique_col col (t ++ [r]) ↔ unique_col col t ∧ taken col (col r) t = false.
Proof.
  unfold unique_col. rewrite omap_app, NoDup_app, taken_false. simpl.
  destruct (col r) as [b|]; simpl.
  - split.
    + intros (Hnd & Hdisj & _). split; [done|]. intros b' [= <-] Hin.
      apply (Hdisj b Hin). left.
    + intros [Hnd Hfresh]. split; [done|]. split; [|apply NoDup_singleton].
      intros b' Hin Hb'%list_elem_of_singleton. subst b'.
      by apply (Hfresh b).
  - split.
    + intros (Hnd & _). by split.
    + intros [Hnd _]. split; [done|]. split; [|constructor].
      by intros b' _ ?%elem_of_nil.
Qed.

Lemma insert_chr_map_iff t r :
  insert_chr_map t r = inr (t ++ [r]) ↔
  is_Some (ChrMap.seqlength r)
  ∧ taken ChrMap.refseq (ChrMap.refseq r) t = false
  ∧ taken ChrMap.igenomes (ChrMap.igenomes r) t = false
  ∧ taken ChrMap.ensembl (ChrMap.ensembl r) t = false
  ∧ taken ChrMap.ucsc (ChrMap.ucsc r) t = false
  ∧ taken ChrMap.mitra (ChrMap.mitra r) t = false
  ∧ taken ChrMap.numbered (ChrMap.numbered r) t = false.
Proof.
  unfold insert_chr_map.
  destruct (ChrMap.seqlength r) as [n|]; [|split; [done|by intros [[? ?] _]]].
  destruct (_ || _) eqn:Htaken.
  - split; [done|]. intros (_ & H1 & H2 & H3 & H4 & H5 & H6).
    by rewrite H1, H2, H3, H4, H5, H6 in Htaken.
  - rewrite !orb_false_iff in Htaken. split; [|done]. intros _.
    split; [by eexists|]. tauto.
Qed.

Lemma chr_map_ok_snoc t r :
  chr_map_ok (t ++ [r]) ↔ chr_map_ok t ∧ insert_chr_map t r = inr (t ++ [r]).
Proof.
  unfold chr_map_ok. rewrite insert_chr_map_iff, Forall_app, Forall_singleton.
  rewrite !unique_col_snoc. tauto.
Qed.

Lemma chr_map_ok_app_l t l : chr_map_ok (t ++ l) → chr_map_ok t.
Proof.
  unfold chr_map_ok, unique_col. rewrite Forall_app, !omap_app, !NoDup_app.
  tauto.
Qed.

(** A frame passes the constraints of [chr_map] exactly when the table with
    the frame added meets them. *)
Lemma insert_many_chr_map_iff df : ∀ t,
  chr_map_ok t →
  (insert_many insert_chr_map t df = inr (t ++ df) ↔ chr_map_ok (t ++ df)).
Proof.
  induction df as [|r df IH]; intros t Ht; simpl.
  - rewrite app_nil_r. by split.
  - replace (t ++ r :: df) with ((t ++ [r]) ++ df) by by rewrite <-app_assoc.
    destruct (insert_chr_map t r) as [e|t1] eqn:Hins.
    + split; [done|]. intros Hok%chr_map_ok_app_l.
      apply chr_map_ok_snoc in Hok as [_ Hok]. congruence.
    + pose proof (insert_chr_map_inr _ _ _ Hins) as [-> _].
      apply IH, chr_map_ok_snoc. by split.
Qed.

Lemma chr_map_ok_nil : chr_map_ok [].
Proof. unfold chr_map_ok, unique_col. repeat split; constructor. Qed.

(** X11.  On a file without the table, [add_chr_map] returns exactly when
    the frame has a seqlength in every row, no value twice in any of
    refseq, igenomes, ensembl, ucsc, mitra and numbered (NULLs aside), and
    seqlengths that are 64-bit integers; the table then holds the frame as
    it is. *)
Theorem add_chr_map_accepts_iff (self : DatabaseAPINew) (w : world)
    (db : database) (df : list ChrMap.row) :
  open_database w (engine self) = inr db →
  catalog db !! "chr_map" = None →
  ((add_chr_map self df w).1 = inr () ↔ chr_map_ok df ∧ chr_map_fits df)
  ∧ ((add_chr_map self df w).1 = inr () →
     chr_map <$> database_at (add_chr_map self df w).2 (engine self)
     = Some df).
Proof.
  intros Hopen Hname. unfold add_chr_map.
  rewrite (run_opened _ _ _ _ db (lifts_add_chr_map _ _)
             (opening_add_chr_map _ _) Hopen).
  simpl.
  assert (database_at
            (write_database (engine self) (Body.add_chr_map exec df db).2 w)
            (engine self)
          = Some (Body.add_chr_map exec df db).2) as ->.
  { unfold database_at. erewrite lookup_node_at_db; [done|].
    eapply at_db_write, open_database_nonroot, Hopen. }
  unfold Body.add_chr_map, bind, exec, create_table_chr_map, create_object,
    to_sql_chr_map.
  rewrite Hname. simpl.
  pose proof (insert_many_chr_map_iff df [] chr_map_ok_nil) as Hiff.
  pose proof (chr_map_fits_spec df) as Hfits.
  simpl in Hiff.
  destruct (insert_many insert_chr_map [] df) as [e|t] eqn:Hins; simpl.
  - split; [|done]. split; [done|]. intros [Hok%Hiff _]. done.
  - pose proof (insert_many_chr_map_inr _ _ _ Hins) as [-> _]. simpl.
    destruct (forallb ChrMap.fits_int64 df); simpl.
    + split; [|done]. split; [|done]. intros _. split; [by apply Hiff|].
      by apply Hfits.
    + split; [|done]. split; [done|]. intros [_ Hf%Hfits]. done.
Qed.

Lemma add_chr_map_accepts_iff_witness :
  open_database tmp_world (engine test_api) = inr empty_database
  ∧ ((add_chr_map test_api [chrI] tmp_world).1 = inr ()
     ↔ chr_map_ok [chrI] ∧ chr_map_fits [chrI])
  ∧ ((add_chr_map test_api [chrI] tmp_world).1 = inr () →
     chr_map <$> database_at (add_chr_map test_api [chrI] tmp_world).2
                             (engine test_api)
     = Some [chrI]).
Proof.
  assert (open_database tmp_world (engine test_api) = inr empty_database)
    as Hopen by (vm_compute; reflexivity).
  split; [exact Hopen|].
  exact (add_chr_map_accepts_iff test_api tmp_world empty_database [chrI]
           Hopen eq_refl).
Defined.

(** ** Rows that bring their own id *)



(** ** When provisioning goes through *)




(** ** The default of [common_name] *)

Lemma fmap_bind_list {A B C} (f : B → C) (g : A → list B) (l : list A) :
  f <$> (l ≫= g) = l ≫= (λ a, f <$> g a).
Proof.
  induction l as [|a l IH]; [done|].
  cbn [mbind list_bind]. by rewrite fmap_app, IH.
Qed.

Lemma common_name_frame_values dfs :
  snd <$> (dfs ≫= regions_frame_values)
  = dfs ≫= (λ df, (λ r, if Regions.has_common_name df
                        then Regions.common_name r
                        else Some "none")
                    <$> Regions.rows df).
Proof.
  rewrite fmap_bind_list. induction dfs as [|df dfs IH]; [done|].
  cbn [mbind list_bind]. rewrite IH. f_equal.
  unfold regions_frame_values. rewrite <-list_fmap_compose. done.
Qed.

(** X14.  When [add_regions] returns, the stored [common_name]s are those
    of the rows of the frames: the frame's own value when the frame has a
    [common_name] column (a missing value stays NULL) and the DEFAULT
    'none' when it has no such column.  They read back in the order of the
    rows' ids, which is frame by frame and row by row when the frames leave
    the [id] to the engine. *)
Theorem add_regions_common_name (self : DatabaseAPINew) (w w' : world)
    (db : database) (dfs : list Regions.frame) :
  open_database w (engine self) = inr db →
  add_regions self dfs w = (inr (), w') →
  ∃ db',
    at_db w' (engine self) db'
    ∧ Regions.common_name <$> regions db'
      ≡ₚ dfs ≫= (λ df, (λ r, if Regions.has_common_name df
                             then Regions.common_name r
                             else Some "none")
                         <$> Regions.rows df)
    ∧ (Forall (λ df, Forall (λ r, Regions.id r = None) (Regions.rows df))
              dfs →
       Regions.common_name <$> regions db'
       = dfs ≫= (λ df, (λ r, if Regions.has_common_name df
                             then Regions.common_name r
                             else Some "none")
                         <$> Regions.rows df)).
Proof.
  intros Hopen. unfold add_regions.
  rewrite (run_opened _ _ _ _ db (lifts_add_regions _ _)
             (opening_add_regions _ _) Hopen).
  destruct (Body.add_regions exec dfs db) as [r db'] eqn:Hrun.
  simpl. intros [= -> <-]. exists db'.
  split; [eapply at_db_write, open_database_nonroot, Hopen|].
  assert (Regions.common_name <$> regions db'
          = snd <$> (regions_row_values <$> regions db')) as ->
    by (by rewrite <-list_fmap_compose).
  rewrite <-common_name_frame_values. split.
  - apply add_regions_inr in Hrun as (_ & _ & Hrows & _). by rewrite Hrows.
  - intros Hnone. by apply add_regions_numbers in Hrun as [_ ->].
Qed.

Lemma add_regions_common_name_witness :
  open_database tmp_world (engine test_api) = inr empty_database
  ∧ (add_regions test_api [Regions.Frame false [promoter];
                           Regions.Frame true [promoter]] tmp_world).1
    = inr ()
  ∧ ∃ db',
      at_db (add_regions test_api [Regions.Frame false [promoter];
                                   Regions.Frame true [promoter]]
                         tmp_world).2
            (engine test_api) db'
      ∧ Regions.common_name <$> regions db'
        ≡ₚ [Regions.Frame false [promoter]; Regions.Frame true [promoter]]
             ≫= (λ df, (λ r, if Regions.has_common_name df
                             then Regions.common_name r
                             else Some "none")
                         <$> Regions.rows df)
      ∧ (Forall (λ df, Forall (λ r, Regions.id r = None) (Regions.rows df))
                [Regions.Frame false [promoter];
                 Regions.Frame true [promoter]] →
         Regions.common_name <$> regions db'
         = [Regions.Frame false [promoter]; Regions.Frame true [promoter]]
             ≫= (λ df, (λ r, if Regions.has_common_name df
                             then Regions.common_name r
                             else Some "none")
                         <$> Regions.rows df)).
Proof.
  assert (open_database tmp_world (engine test_api) = inr empty_database)
    as Hopen by (vm_compute; reflexivity).
  assert ((add_regions test_api [Regions.Frame false [promoter];
                                 Regions.Frame true [promoter]]
                       tmp_world).1 = inr ()) as Hfst
    by (vm_compute; reflexivity).
  split; [exact Hopen|]. split; [exact Hfst|].
  apply (add_regions_common_name test_api tmp_world _ empty_database
           [Regions.Frame false [promoter]; Regions.Frame true [promoter]]
           Hopen).
  rewrite <-Hfst. apply surjective_pairing.
Defined.

(** ** Counts in a region against the totals *)

Lemma filter_none {A} (P : A → Prop) `{!∀ x, Decision (P x)} (l : list A) :
  (∀ x, x ∈ l → ¬ P x) → filter P l = [].
Proof.
  induction l as [|x l IH]; intros Hl; [done|].
  rewrite filter_cons_False by (apply Hl; left).
  apply IH. intros y ?. apply Hl. by right.
Qed.

Lemma filter_length_mono {A} (P Q : A → Prop) `{!∀ x, Decision (P x)}
    `{!∀ x, Decision (Q x)} (l : list A) :
  (∀ x, P x → Q x) → (length (filter P l) ≤ length (filter Q l))%nat.
Proof.
  intros HPQ. induction l as [|x l IH]; [done|].
  rewrite !filter_cons. destruct (decide (P x)) as [HP|HP].
  - rewrite decide_True by auto. simpl. lia.
  - destruct (decide (Q x)); simpl; lia.
Qed.

Lemma left_join_fst {A B} (l : list A) (r : list B) (p : A * option B) :
  p ∈ Sql.left_join l r → p.1 ∈ l.
Proof.
  unfold Sql.left_join. rewrite list_elem_of_bind.
  intros (a' & Hin & Ha'). destruct r as [|b0 r].
  - apply list_elem_of_singleton in Hin. by subst.
  - apply list_elem_of_fmap in Hin as (b' & -> & Hb'). done.
Qed.

(** With [id] a key of [regions], the matched pairs of one group all come
    from one region, so they are no more than the events of the group's
    background sample. *)
Lemma group_within_sample (rs : list (Regions.row Z))
    (bg : list (Background.row Z)) k :
  NoDup (Regions.id <$> rs) →
  (length (filter (λ p, group_key p = k)
                  (filter (λ p, hit p) (Sql.left_join rs bg)))
   ≤ length (filter (λ x, Background.sample x = k.1.1.1.1.2) bg))%nat.
Proof.
  rewrite list_filter_filter.
  set (P := λ p : Regions.row Z * option (Background.row Z),
              group_key p = k ∧ hit p).
  assert (∀ r, (length (filter P (Sql.left_join [r] bg))
                ≤ length (filter (λ x, Background.sample x = k.1.1.1.1.2) bg))
               %nat) as Hrow.
  { intros r. unfold Sql.left_join. cbn [mbind list_bind].
    rewrite app_nil_r. destruct bg as [|x bg].
    - rewrite filter_none; [simpl; lia|].
      intros p ->%list_elem_of_singleton [_ Hhit].
      by rewrite hit_padded in Hhit.
    - rewrite filter_fmap, length_fmap. apply filter_length_mono.
      intros y [Hk _]. subst k. done. }
  assert (∀ rs', (∀ r, r ∈ rs' → Regions.id r ≠ k.2) →
                 filter P (Sql.left_join rs' bg) = []) as Hnone.
  { intros rs' Hrs'. apply filter_none. intros p Hp [Hk _].
    apply left_join_fst in Hp. apply (Hrs' _ Hp). by subst k. }
  induction rs as [|r rs IH]; intros Hnd; [simpl; lia|].
  rewrite fmap_cons in Hnd. apply NoDup_cons in Hnd as [Hr Hnd].
  replace (Sql.left_join (r :: rs) bg)
    with (Sql.left_join [r] bg ++ Sql.left_join rs bg)
    by (unfold Sql.left_join; cbn [mbind list_bind]; by rewrite app_nil_r).
  rewrite filter_app, length_app.
  destruct (decide (Regions.id r = k.2)) as [Hid|Hid].
  - rewrite (Hnone rs).
    + specialize (Hrow r). cbn [length]. lia.
    + intros r' Hr' Hid'. apply Hr. rewrite Hid, <-Hid'.
      by apply list_elem_of_fmap_2.
  - rewrite (Hnone [r]).
    + cbn [length]. by apply IH.
    + intros r' ->%list_elem_of_singleton. done.
Qed.

(** X15.  With [id] a key of [regions], as after provisioning, no row of
    [region_background_agg] counts more events than [total_bg_hops] shows
    for the row's background sample, and [total_bg_hops] has a row for
    that sample. *)
Theorem background_hops_within_total (db : database) (a : Agg.row) :
  db_ok db →
  a ∈ region_background_agg db →
  ∃ t, t ∈ total_bg_hops db
       ∧ Total.sample t = Agg.background_sample a
       ∧ Agg.background_hops a ≤ Total.hops t.
Proof.
  intros [_ Hids] Ha.
  destruct (region_background_agg_sound db a Ha)
    as (r & x & Hr & Hx & Hs & Hk).
  unfold region_background_agg in Ha. apply elem_of_order_by in Ha.
  apply list_elem_of_fmap in Ha as (g & -> & Hg).
  apply elem_of_group_by in Hg as [_ Hg].
  rewrite agg_key_select_agg in Hk.
  exists (Total.Row (Background.sample x)
            (Z.of_nat (length (filter (λ y, Background.sample y
                                            = Background.sample x)
                                      (background db))))).
  split; [|split].
  - unfold total_bg_hops. apply list_elem_of_fmap.
    exists (Background.sample x,
            filter (λ y, Background.sample y = Background.sample x)
                   (background db)).
    split; [done|]. apply elem_of_group_by. split; [|done].
    simpl. by apply list_elem_of_fmap_2.
  - destruct g as [k members]. simpl in *. subst k.
    unfold select_agg, group_key. done.
  - rewrite background_hops_select_agg. simpl. rewrite Hg.
    apply Nat2Z.inj_le.
    pose proof (group_within_sample (regions db) (background db) g.1 Hids)
      as Hle.
    assert (g.1.1.1.1.1.2 = Background.sample x) as Hsx by (by rewrite Hk).
    rewrite Hsx in Hle. exact Hle.
Qed.

Lemma background_hops_within_total_witness :
  db_ok scenario_db
  ∧ Agg.Row (Some "chrI") (Some 50) (Some 200) 1 (Some "reg1") (Some "bg1") 1
            (Some "YAL001") (Some "none")
      ∈ region_background_agg scenario_db
  ∧ ∃ t, t ∈ total_bg_hops scenario_db
         ∧ Total.sample t = Some "bg1"
         ∧ 1 ≤ Total.hops t.
Proof.
  assert (db_ok scenario_db) as Hok
    by (split; simpl; apply NoDup_singleton).
  assert (Agg.Row (Some "chrI") (Some 50) (Some 200) 1 (Some "reg1")
                  (Some "bg1") 1 (Some "YAL001") (Some "none")
            ∈ region_background_agg scenario_db) as Hin
    by (vm_compute; left).
  split; [exact Hok|]. split; [exact Hin|].
  exact (background_hops_within_total scenario_db _ Hok Hin).
Defined.
